(** * live-subtitles backend: model registry and streaming session

    A shallow embedding of [backend/main.py]:

    - [Registry]: the [TranscriptionService] class (per-tier model table,
      [load_model], the download-progress thread, [transcribe_audio]) and the
      [/model-status] query;
    - [Session]: the body of the [websocket_endpoint] receive loop (the two
      rolling buffers, the flush, the duplicate filter and the per-lane
      error handling).

    Python [int] is [Z], [time.time()] readings and segment offsets are
    rationals ([Q]), [str] is [string] (a character is a code point below
    256, which covers the Swedish alphabet), the [models] dict is a
    [gmap string (option WhisperModel)], [bytes] is [list byte]. *)

From Stdlib Require Import ZArith QArith Lia String Ascii List.
From Stdlib.Strings Require Import Byte.
From stdpp Require Import base option gmap strings list.

Close Scope Q_scope.
Local Open Scope Z_scope.

(** ** Python built-ins used by the program *)

(** [str.isspace] for a single character (code points below 256). *)
Definition isspace (c : ascii) : bool :=
  let n := N_of_ascii c in
  ((9 <=? n) && (n <=? 13) || (28 <=? n) && (n <=? 32)
   || (n =? 133) || (n =? 160))%N.

Fixpoint lstrip (s : string) : string :=
  match s with
  | EmptyString => EmptyString
  | String c s' => if isspace c then lstrip s' else s
  end.

Fixpoint rstrip (s : string) : string :=
  match s with
  | EmptyString => EmptyString
  | String c s' =>
      match rstrip s' with
      | EmptyString => if isspace c then EmptyString else String c EmptyString
      | r => String c r
      end
  end.

(** [s.strip()] *)
Definition strip (s : string) : string := rstrip (lstrip s).

(** Truth value of a [str]: the empty string is falsy. *)
Definition truthy (s : string) : bool :=
  match s with EmptyString => false | String _ _ => true end.

(** [l[i:]] for a Python list and an integer [i] of either sign. *)
Definition slice_from {A} (i : Z) (l : list A) : list A :=
  let n := Z.of_nat (length l) in
  let start := if i <? 0 then Z.max 0 (n + i) else Z.min i n in
  drop (Z.to_nat start) l.

(** Exceptions the program raises or lets through. *)
Inductive exn :=
| ValueError (msg : string)
| RuntimeError (msg : string)
| KeyError (key : string)
| Exception (msg : string).

(** [str(e)] *)
Definition str (e : exn) : string :=
  match e with
  | ValueError msg | RuntimeError msg | Exception msg => msg
  | KeyError key => "'" +:+ key +:+ "'"
  end.

(** A chunk is what [np.frombuffer(data, dtype=np.float32)] returns: one
    32-bit word per sample, kept as its bit pattern. *)
Definition Sample := Z.
Definition Chunk := list Sample.
Definition Audio := list Sample.

Definition float32_le (b0 b1 b2 b3 : byte) : Sample :=
  Z.of_N (Byte.to_N b0)
  + Z.shiftl (Z.of_N (Byte.to_N b1)) 8
  + Z.shiftl (Z.of_N (Byte.to_N b2)) 16
  + Z.shiftl (Z.of_N (Byte.to_N b3)) 24.

(** [np.frombuffer] fails (ValueError) when the frame length is not a
    multiple of the element size. *)
Fixpoint frombuffer (data : list byte) : option Chunk :=
  match data with
  | [] => Some []
  | b0 :: b1 :: b2 :: b3 :: rest =>
      match frombuffer rest with
      | Some a => Some (float32_le b0 b1 b2 b3 :: a)
      | None => None
      end
  | _ => None
  end.

(** One entry of the list [transcribe_audio] returns. *)
Record Segment := {
  seg_text : string;
  seg_start : Q;
  seg_end : Q }.

(** ** The model registry: class [TranscriptionService] *)

Module Registry.

(** Identity of a loaded [WhisperModel] object. *)
Definition WhisperModel := nat.

(** The dict published in [download_progress]. *)
Record DownloadStatus := {
  status : string;
  status_is_downloading : bool;
  status_model : string }.

Record TranscriptionService := {
  models : gmap string (option WhisperModel);
  current_model : string;
  download_progress : option DownloadStatus;
  is_downloading : bool;
  project_cache_dir : string }.

Definition set_models (f : gmap string (option WhisperModel) → gmap string (option WhisperModel))
    (st : TranscriptionService) : TranscriptionService :=
  {| models := f (models st); current_model := current_model st;
     download_progress := download_progress st;
     is_downloading := is_downloading st;
     project_cache_dir := project_cache_dir st |}.

Definition set_current_model (m : string) (st : TranscriptionService) : TranscriptionService :=
  {| models := models st; current_model := m;
     download_progress := download_progress st;
     is_downloading := is_downloading st;
     project_cache_dir := project_cache_dir st |}.

Definition set_download_progress (p : option DownloadStatus)
    (st : TranscriptionService) : TranscriptionService :=
  {| models := models st; current_model := current_model st;
     download_progress := p;
     is_downloading := is_downloading st;
     project_cache_dir := project_cache_dir st |}.

Definition set_is_downloading (b : bool) (st : TranscriptionService) : TranscriptionService :=
  {| models := models st; current_model := current_model st;
     download_progress := download_progress st;
     is_downloading := b;
     project_cache_dir := project_cache_dir st |}.

(** What the registry reads from outside the process: the answer of
    [model_exists_locally] and the outcome of the [WhisperModel(...)]
    constructor, which fetches the weights when they are absent. *)
Record Env := {
  model_exists_locally : string → bool;
  WhisperModel_new : string → exn + WhisperModel }.

(** What a call does besides writing the service's fields. *)
Inductive effect :=
| LogInfo (msg : string)
| LogError (msg : string)
| ExistsCheck (model_size : string)
| StartProgressThread (model_size : string)
| Fetch (model_id : string)
| Sleep (seconds : Z).

Definition TIERS : list string := ["tiny"; "base"; "small"; "medium"; "large"].

(** The fields set by [__init__] before it calls [load_model("small")]. *)
Definition init_fields (cache_dir : string) : TranscriptionService :=
  {| models := list_to_map ((λ t, (t, None)) <$> TIERS);
     current_model := "small";
     download_progress := None;
     is_downloading := false;
     project_cache_dir := cache_dir |}.

Definition model_id_of (model_size : string) : string :=
  "KBLab/kb-whisper-" +:+ model_size.

(** [load_model], lines 107-125: up to the blocking constructor call.  The
    state returned is the one other threads observe while the fetch is in
    flight. *)
Definition load_begin (env : Env) (model_size : string) (st : TranscriptionService)
    : TranscriptionService * bool * list effect :=
  let needs_download := negb (model_exists_locally env model_size) in
  let st1 := if needs_download then set_is_downloading true st else st in
  (st1, needs_download,
   [ExistsCheck model_size]
   ++ (if needs_download
       then [LogInfo ("Model " +:+ model_size +:+ " not found locally, downloading...");
             StartProgressThread model_size]
       else [])
   ++ [LogInfo ("Loading model: " +:+ model_id_of model_size);
       LogInfo ("Using cache directory: " +:+ project_cache_dir st);
       Fetch (model_id_of model_size)]).

(** [load_model], lines 128-154: what follows the constructor's outcome [r],
    from the state [st] the service is in at that moment. *)
Definition load_finish (model_size : string) (needs_download : bool)
    (r : exn + WhisperModel) (st : TranscriptionService)
    : option exn * TranscriptionService * list effect :=
  match r with
  | inr m =>
      (None,
       set_download_progress None
         (set_current_model model_size
            (set_is_downloading false
               (set_models <[model_size := Some m]> st))),
       [LogInfo ("Model " +:+ model_size +:+ " loaded successfully")]
       ++ (if needs_download then [Sleep 2] else [])
       ++ [LogInfo ("Model " +:+ model_size +:+ " loaded successfully")])
  | inl e =>
      (Some e,
       set_download_progress None (set_is_downloading false st),
       [LogError ("Failed to load model " +:+ model_size +:+ ": " +:+ str e)])
  end.

(** [load_model]: the exception raised (if any), the service afterwards and
    the effects performed, when no other thread writes the service during
    the call. *)
Definition load_model (env : Env) (model_size : string) (st : TranscriptionService)
    : option exn * TranscriptionService * list effect :=
  match models st !! model_size with
  | None => (Some (ValueError ("Invalid model size: " +:+ model_size)), st, [])
  | Some (Some _) =>
      (None, set_current_model model_size st,
       [LogInfo ("Model " +:+ model_size +:+ " already loaded in memory")])
  | Some None =>
      let '(st1, needs_download, tr1) := load_begin env model_size st in
      let '(r, st2, tr2) :=
        load_finish model_size needs_download
          (WhisperModel_new env (model_id_of model_size)) st1 in
      (r, st2, tr1 ++ tr2)
  end.

(** [__init__] *)
Definition init (env : Env) (cache_dir : string)
    : option exn * TranscriptionService * list effect :=
  load_model env "small" (init_fields cache_dir).

(** The daemon thread running [update_download_progress], one shared-state
    access per step. *)
Inductive progress_pc :=
| Announce      (* about to publish the initial status *)
| Polling       (* in the [while self.is_downloading] loop *)
| Grace         (* completion published, sleeping two seconds *)
| Finished.

Definition size_estimates : gmap string string :=
  list_to_map [("tiny", "80 MB"); ("base", "150 MB"); ("small", "500 MB");
               ("medium", "1.5 GB"); ("large", "3 GB")].

Definition update_download_progress (model_size : string) (pc : progress_pc)
    (st : TranscriptionService) : progress_pc * TranscriptionService :=
  match pc with
  | Announce =>
      let model_size_str := default "Unknown" (size_estimates !! model_size) in
      (Polling,
       set_download_progress
         (Some {| status := "Laddar ner " +:+ model_size +:+ " modell ("
                            +:+ model_size_str +:+ ")...";
                  status_is_downloading := true;
                  status_model := model_size |}) st)
  | Polling =>
      if is_downloading st then (Polling, st)
      else (Grace,
            set_download_progress
              (Some {| status := model_size +:+ " modell nedladdad och klar!";
                       status_is_downloading := false;
                       status_model := model_size |}) st)
  | Grace => (Finished, set_download_progress None st)
  | Finished => (Finished, st)
  end.

(** The answer of [GET /model-status]. *)
Record ModelStatus := {
  ms_model : string;
  ms_is_loaded : bool;
  ms_is_downloading : bool;
  ms_is_current : bool }.

Definition model_status (svc : TranscriptionService) (model : string) : ModelStatus :=
  {| ms_model := model;
     ms_is_loaded :=
       match models svc !! model with Some (Some _) => true | _ => false end;
     ms_is_downloading :=
       is_downloading svc && bool_decide (current_model svc = model);
     ms_is_current := bool_decide (current_model svc = model) |}.

(** The answer of [GET /download-progress]: [None] is the empty dict. *)
Definition poll_download_progress (svc : TranscriptionService) : option DownloadStatus :=
  download_progress svc.

(** The dict appended for one segment, lines 171-175. *)
Definition stripped (segment : Segment) : Segment :=
  {| seg_text := strip (seg_text segment);
     seg_start := seg_start segment;
     seg_end := seg_end segment |}.

(** The opaque model call [model.transcribe(audio, language, beam_size,
    vad_filter)]. *)
Definition Transcriber : Type :=
  WhisperModel → Audio → string → Z → bool → exn + list Segment.

Definition transcribe_audio (transcribe : Transcriber) (svc : TranscriptionService)
    (audio_data : Audio) (vad_sensitivity : Z) : exn + list Segment :=
  match models svc !! current_model svc with
  | None => inl (KeyError (current_model svc))
  | Some None =>
      inl (RuntimeError ("Model " +:+ current_model svc +:+ " not loaded"))
  | Some (Some m) =>
      let beam_size := 6 - vad_sensitivity in
      match transcribe m audio_data "sv" (Z.max 1 beam_size) true with
      | inl e => inl e
      | inr segments =>
          inr (stripped <$> segments)
      end
  end.

(** The keys of [models] are the five tier names: [__init__] creates them
    and nothing adds or removes a key. *)
Definition tiers_known (st : TranscriptionService) : Prop :=
  dom (models st) = list_to_set TIERS.

End Registry.

(** ** The streaming session: the receive loop of [websocket_endpoint] *)

Module Session.
Import Registry.

(** The two cadences. *)
Inductive Lane := Instant | Final.

#[global] Instance Lane_eq_dec : EqDecision Lane.
Proof. solve_decision. Defined.

(** Frames sent to the client by [websocket.send_json]. *)
Inductive Event :=
| model_loading (model : string)
| model_loaded (model : string)
| transcription (mode : Lane) (data : Segment)
| error (message : string).

(** One invocation of [transcription_service.transcribe_audio], tagged with
    the lane whose flush made it. *)
Record Call := {
  call_lane : Lane;
  call_audio : Audio;
  call_vad : Z }.

(** Everything the loop does to the outside, in order: the events
    delivered by [send_json] (taken to succeed while the connection is
    up), the lines passed to [logger.error], how many times [time.time()]
    was read, the adapter calls, and whether [websocket.close()] was
    called. *)
Record World := {
  sent : list Event;
  logged : list string;
  time_reads : nat;
  calls : list Call;
  closed : bool }.

(** The local variables of [websocket_endpoint] that survive an iteration. *)
Record Locals := {
  audio_buffer : list Chunk;
  instant_buffer : list Chunk;
  last_transcription_text : string;
  last_transcription_time : Q;
  last_instant_text : string;
  last_instant_time : Q }.

(** Lines 355-362. *)
Definition initial : Locals :=
  {| audio_buffer := []; instant_buffer := [];
     last_transcription_text := ""; last_transcription_time := 0%Q;
     last_instant_text := ""; last_instant_time := 0%Q |}.

Definition set_audio_buffer (b : list Chunk) (s : Locals) : Locals :=
  {| audio_buffer := b; instant_buffer := instant_buffer s;
     last_transcription_text := last_transcription_text s;
     last_transcription_time := last_transcription_time s;
     last_instant_text := last_instant_text s;
     last_instant_time := last_instant_time s |}.

Definition set_instant_buffer (b : list Chunk) (s : Locals) : Locals :=
  {| audio_buffer := audio_buffer s; instant_buffer := b;
     last_transcription_text := last_transcription_text s;
     last_transcription_time := last_transcription_time s;
     last_instant_text := last_instant_text s;
     last_instant_time := last_instant_time s |}.

(** Per-lane view of the locals. *)
Definition buffer_of (l : Lane) (s : Locals) : list Chunk :=
  match l with Instant => instant_buffer s | Final => audio_buffer s end.

Definition last_text (l : Lane) (s : Locals) : string :=
  match l with
  | Instant => last_instant_text s
  | Final => last_transcription_text s
  end.

Definition last_time (l : Lane) (s : Locals) : Q :=
  match l with
  | Instant => last_instant_time s
  | Final => last_transcription_time s
  end.

Definition set_last (l : Lane) (text : string) (t : Q) (s : Locals) : Locals :=
  match l with
  | Instant =>
      {| audio_buffer := audio_buffer s; instant_buffer := instant_buffer s;
         last_transcription_text := last_transcription_text s;
         last_transcription_time := last_transcription_time s;
         last_instant_text := text; last_instant_time := t |}
  | Final =>
      {| audio_buffer := audio_buffer s; instant_buffer := instant_buffer s;
         last_transcription_text := text; last_transcription_time := t;
         last_instant_text := last_instant_text s;
         last_instant_time := last_instant_time s |}
  end.

(** [buffer_size = 30 - (vad * 2)] and [instant_buffer_size = 8]. *)
Definition buffer_size (vad : Z) : Z := 30 - (vad * 2).
Definition instant_buffer_size : Z := 8.

Definition threshold (l : Lane) (vad : Z) : Z :=
  match l with Instant => instant_buffer_size | Final => buffer_size vad end.

(** The constants [1.0] and [2.0] of the duplicate filters. *)
Definition cadence (l : Lane) : Q :=
  match l with Instant => 1%Q | Final => 2%Q end.

(** A computation of the loop: it reads and extends the world. *)
Definition M (A : Type) : Type := World → A * World.

Definition ret {A} (a : A) : M A := λ w, (a, w).
Definition bind {A B} (c : M A) (k : A → M B) : M B :=
  λ w, let '(a, w') := c w in k a w'.

Notation "x <~ c ;; k" := (bind c (λ x, k))
  (at level 100, c at next level, right associativity).
Notation "c ;;; k" := (bind c (λ _, k))
  (at level 100, right associativity).

Definition send_json (e : Event) : M unit :=
  λ w, (tt, {| sent := sent w ++ [e]; logged := logged w;
               time_reads := time_reads w; calls := calls w;
               closed := closed w |}).

Definition logger_error (msg : string) : M unit :=
  λ w, (tt, {| sent := sent w; logged := logged w ++ [msg];
               time_reads := time_reads w; calls := calls w;
               closed := closed w |}).

Definition websocket_close : M unit :=
  λ w, (tt, {| sent := sent w; logged := logged w;
               time_reads := time_reads w; calls := calls w;
               closed := true |}).

Fixpoint for_each {A S} (body : A → S → M S) (l : list A) (s : S) : M S :=
  match l with
  | [] => ret s
  | a :: l' => s' <~ body a s ;; for_each body l' s'
  end.

(** The audio handed to the adapter by one lane, oldest call first. *)
Definition lane_calls (l : Lane) (w : World) : list Audio :=
  call_audio <$> filter (λ c, call_lane c = l) (calls w).

Section Loop.

(** [clock n] is what the [n]-th call of [time.time()] returns;
    [whisper n] is the behaviour of the loaded model at the [n]-th call of
    the adapter. *)
Variable clock : nat → Q.
Variable whisper : nat → Transcriber.

Definition time_time : M Q :=
  λ w, (clock (time_reads w),
        {| sent := sent w; logged := logged w;
           time_reads := S (time_reads w); calls := calls w;
           closed := closed w |}).

(** [transcription_service.transcribe_audio(audio, vad)] on the service as
    it is at the time of the call. *)
Definition call_adapter (l : Lane) (svc : TranscriptionService) (audio : Audio)
    (vad : Z) : M (exn + list Segment) :=
  λ w, (transcribe_audio (whisper (length (calls w))) svc audio vad,
        {| sent := sent w; logged := logged w; time_reads := time_reads w;
           calls := calls w ++ [{| call_lane := l; call_audio := audio;
                                   call_vad := vad |}];
           closed := closed w |}).

(** The test of lines 387-388 and 414-415. *)
Definition passes_filter (l : Lane) (s : Locals) (text : string) (current_time : Q) : bool :=
  truthy text
  && (negb (String.eqb text (last_text l s))
      || negb (Qle_bool (current_time - last_time l s) (cadence l))).

(** The body of the [for transcription in ...] loops, lines 383-395 and
    410-422. *)
Definition emit_segment (l : Lane) (transcription : Segment) (s : Locals) : M Locals :=
  current_time <~ time_time ;;
  let text := strip (seg_text transcription) in
  if passes_filter l s text current_time then
    send_json (Session.transcription l transcription) ;;;
    ret (set_last l text current_time s)
  else ret s.

(** Lines 371-397. *)
Definition instant_lane (vad : Z) (svc : TranscriptionService)
    (audio_array : Chunk) (s : Locals) : M Locals :=
  let s := set_instant_buffer (instant_buffer s ++ [audio_array]) s in
  if Z.of_nat (length (instant_buffer s)) >=? instant_buffer_size then
    let instant_audio := concat (instant_buffer s) in
    let s := set_instant_buffer
               (slice_from (- (instant_buffer_size / 4)) (instant_buffer s)) s in
    r <~ call_adapter Instant svc instant_audio vad ;;
    match r with
    | inr instant_transcriptions =>
        for_each (emit_segment Instant) instant_transcriptions s
    | inl e =>
        logger_error ("Instant transcription error: " +:+ str e) ;;;
        ret s
    end
  else ret s.

(** Lines 400-428. *)
Definition final_lane (vad : Z) (svc : TranscriptionService) (s : Locals) : M Locals :=
  if Z.of_nat (length (audio_buffer s)) >=? buffer_size vad then
    let full_audio := concat (audio_buffer s) in
    let s := set_audio_buffer
               (slice_from (- (buffer_size vad / 4)) (audio_buffer s)) s in
    r <~ call_adapter Final svc full_audio vad ;;
    match r with
    | inr transcriptions => for_each (emit_segment Final) transcriptions s
    | inl e =>
        logger_error ("Transcription error: " +:+ str e) ;;;
        send_json (error (str e)) ;;;
        ret s
    end
  else ret s.

(** What [await websocket.receive_bytes()] yields. *)
Inductive Incoming :=
| Bytes (data : list byte)
| Disconnect.

(** One iteration of [while True], lines 365-428, with the handlers of
    lines 430-434.  [None]: the loop was left. *)
Definition iteration (vad : Z) (instant : bool) (svc : TranscriptionService)
    (msg : Incoming) (s : Locals) : M (option Locals) :=
  match msg with
  | Disconnect => ret None
  | Bytes data =>
      match frombuffer data with
      | None =>
          logger_error "WebSocket error: buffer size must be a multiple of element size" ;;;
          websocket_close ;;;
          ret None
      | Some audio_array =>
          let s := set_audio_buffer (audio_buffer s ++ [audio_array]) s in
          s <~ (if instant then instant_lane vad svc audio_array s else ret s) ;;
          s <~ final_lane vad svc s ;;
          ret (Some s)
      end
  end.

(** The loop over the messages received so far, each with the service as
    it is when the message is handled.  [Some s]: the session is waiting
    for the next message with locals [s]. *)
Fixpoint run (vad : Z) (instant : bool)
    (inputs : list (TranscriptionService * Incoming)) (s : Locals) : M (option Locals) :=
  match inputs with
  | [] => ret (Some s)
  | (svc, msg) :: rest =>
      r <~ iteration vad instant svc msg s ;;
      match r with
      | Some s' => run vad instant rest s'
      | None => ret None
      end
  end.

End Loop.

(** Whether a lane is fed at all: the instant lane only in instant mode. *)
Definition enabled (instant : bool) (l : Lane) : bool :=
  match l with Instant => instant | Final => true end.

(** The loop invariant on the two buffers. *)
Definition below_threshold (vad : Z) (s : Locals) : Prop :=
  ∀ l, Z.of_nat (length (buffer_of l s)) < threshold l vad.

(** The chunks carried by a list of received messages, in order; [None]
    when one of them is a disconnect or a malformed frame. *)
Fixpoint chunks_of (inputs : list (TranscriptionService * Incoming)) : option (list Chunk) :=
  match inputs with
  | [] => Some []
  | (_, Bytes data) :: rest =>
      match frombuffer data, chunks_of rest with
      | Some c, Some cs => Some (c :: cs)
      | _, _ => None
      end
  | (_, Disconnect) :: _ => None
  end.

End Session.

(** ** Concrete environments and inputs used to run the model *)

Module Examples.
Import Registry Session.

(** No weights on disk; every fetch succeeds and yields object 1. *)
Definition env_fetch : Env :=
  {| model_exists_locally := λ _, false;
     WhisperModel_new := λ _, inr 1%nat |}.

(** No weights on disk and the fetch fails. *)
Definition env_offline : Env :=
  {| model_exists_locally := λ _, false;
     WhisperModel_new := λ _, inl (Exception "Connection refused") |}.

(** The service once the module is imported: [small] loaded and current. *)
Definition serving : TranscriptionService :=
  (init env_fetch "/srv/models").1.2.

(** [serving] while a background [load_model("medium")] is fetching and its
    progress thread has published the initial status. *)
Definition fetching_medium : TranscriptionService :=
  (update_download_progress "medium" Announce
     (load_begin env_fetch "medium" serving).1.1).2.


(** One second passes between two readings of the clock. *)
Definition tick (n : nat) : Q := inject_Z (Z.of_nat n).

(** A model that hears the same word in every window. *)
Definition hej : Transcriber :=
  λ _ _ _ _ _, inr [{| seg_text := " hej "; seg_start := 0%Q; seg_end := 1%Q |}].

Definition always_hej (n : nat) : Transcriber := hej.

(** A frame of one sample whose low byte is [n]; it decodes to [[n]]. *)
Definition frame_of (n : nat) : list byte :=
  [default x00 (Byte.of_nat n); x00; x00; x00].

(** [k] frames numbered from [n], all handled while [serving] is the
    service. *)
Definition frames (n k : nat) : list (TranscriptionService * Incoming) :=
  (λ i, (serving, Bytes (frame_of i))) <$> seq n k.

Definition chunks (n k : nat) : list Chunk :=
  (λ i, [Z.of_nat i]) <$> seq n k.

Definition fresh_world : World :=
  {| sent := []; logged := []; time_reads := 0; calls := []; closed := false |}.

(** Locals with 23 chunks in the final buffer and 7 in the instant one. *)
Definition nearly_full : Locals :=
  set_instant_buffer (chunks 17 7) (set_audio_buffer (chunks 1 23) initial).

(** The locals and the world after thirty frames of an instant-mode
    session with sensitivity 3. *)
Definition after_thirty_frames : Locals * World :=
  let r := run tick always_hej 3 true (frames 1 30) initial fresh_world in
  (default initial r.1, r.2).

End Examples.

(** ** Sequences of loads, and one download in small steps *)

Module Lifecycle.
Import Registry.

(** The service after [load_model] calls made one after the other, each
    with the environment it meets; an exception raised by a call is
    dropped, as the callers do. *)
Definition loads (calls : list (Env * string)) (st : TranscriptionService)
    : TranscriptionService :=
  foldl (λ st call, (load_model call.1 call.2 st).1.2) st calls.

(** The constructor calls among the effects of a call. *)
Definition fetches (tr : list effect) : list string :=
  omap (λ e, match e with Fetch model_id => Some model_id | _ => None end) tr.

(** What holds of the service between two calls once start-up succeeded. *)
Definition healthy (st : TranscriptionService) : Prop :=
  tiers_known st
  ∧ (∃ m, models st !! current_model st = Some (Some m))
  ∧ is_downloading st = false
  ∧ download_progress st = None.

(** The two records [update_download_progress] publishes. *)
Definition announced (model_size : string) : DownloadStatus :=
  {| status := "Laddar ner " +:+ model_size +:+ " modell ("
               +:+ default "Unknown" (size_estimates !! model_size) +:+ ")...";
     status_is_downloading := true;
     status_model := model_size |}.

Definition completed (model_size : string) : DownloadStatus :=
  {| status := model_size +:+ " modell nedladdad och klar!";
     status_is_downloading := false;
     status_model := model_size |}.

(** Where a [load_model] call that took the fetch path stands, one write
    of a shared field per step. *)
Inductive loader_pc :=
| Constructing                  (* line 128, in [WhisperModel(...)] *)
| HandleStored                  (* before line 140 *)
| FlagCleared                   (* before line 146, past the sleep *)
| CurrentSet                    (* before line 147 *)
| Caught (e : exn)              (* before line 151 *)
| CaughtCleared (e : exn)       (* before line 152 *)
| Returned (raised : option exn).

Definition loader_step (model_size : string) (r : exn + WhisperModel)
    (pc : loader_pc) (st : TranscriptionService) : loader_pc * TranscriptionService :=
  match pc with
  | Constructing =>
      match r with
      | inr m => (HandleStored, set_models <[model_size := Some m]> st)
      | inl e => (Caught e, st)
      end
  | HandleStored => (FlagCleared, set_is_downloading false st)
  | FlagCleared => (CurrentSet, set_current_model model_size st)
  | CurrentSet => (Returned None, set_download_progress None st)
  | Caught e => (CaughtCleared e, set_is_downloading false st)
  | CaughtCleared e => (Returned (Some e), set_download_progress None st)
  | Returned raised => (Returned raised, st)
  end.

(** Where the thread running [update_download_progress] stands, one
    access of a shared field per step. *)
Inductive thread_pc :=
| TAnnounce                     (* before line 78 *)
| TPoll                         (* at the test of line 85 *)
| TPublish                      (* before line 89 *)
| TGrace                        (* in the sleep of line 94 *)
| TExited.

Definition thread_step (model_size : string) (pc : thread_pc)
    (st : TranscriptionService) : thread_pc * TranscriptionService :=
  match pc with
  | TAnnounce => (TPoll, set_download_progress (Some (announced model_size)) st)
  | TPoll => if is_downloading st then (TPoll, st) else (TPublish, st)
  | TPublish => (TGrace, set_download_progress (Some (completed model_size)) st)
  | TGrace => (TExited, set_download_progress None st)
  | TExited => (TExited, st)
  end.

(** The loader, the progress thread if one was started, and the service
    they share. *)
Record Config := {
  loader : loader_pc;
  thread : option thread_pc;
  service : TranscriptionService }.

Inductive Actor := Loader | Progress.

(** The configuration when the constructor is entered (lines 110-125). *)
Definition start (env : Env) (model_size : string) (st : TranscriptionService) : Config :=
  let '(st1, needs_download, _) := load_begin env model_size st in
  {| loader := Constructing;
     thread := if needs_download then Some TAnnounce else None;
     service := st1 |}.

(** One step of the scheduled actor; an actor that has ended, or a thread
    that was never started, does nothing. *)
Definition step (model_size : string) (r : exn + WhisperModel) (cfg : Config)
    (a : Actor) : Config :=
  match a with
  | Loader =>
      let '(pc, st) := loader_step model_size r (loader cfg) (service cfg) in
      {| loader := pc; thread := thread cfg; service := st |}
  | Progress =>
      match thread cfg with
      | Some tpc =>
          let '(tpc', st) := thread_step model_size tpc (service cfg) in
          {| loader := loader cfg; thread := Some tpc'; service := st |}
      | None => cfg
      end
  end.

Definition interleave (model_size : string) (r : exn + WhisperModel)
    (schedule : list Actor) (cfg : Config) : Config :=
  foldl (step model_size r) cfg schedule.

(** Both actors have ended. *)
Definition finished (cfg : Config) : Prop :=
  (∃ raised, loader cfg = Returned raised)
  ∧ (thread cfg = None ∨ thread cfg = Some TExited).


(** What every configuration reached from [start env model_size st0]
    satisfies: the table and the current tier are as far as the loader
    got, the flag is down once the loader cleared it and up before that
    if a download was needed, an announced status stays while the
    constructor runs, and nothing is published when both have ended. *)
Definition reached (env : Env) (model_size : string) (r : exn + WhisperModel)
    (st0 : TranscriptionService) (cfg : Config) : Prop :=
  let st := service cfg in
  let needs_download := negb (model_exists_locally env model_size) in
  (thread cfg = None ↔ needs_download = false)
  ∧ match loader cfg with
    | Constructing =>
        models st = models st0 ∧ current_model st = current_model st0
        ∧ (needs_download = true → is_downloading st = true)
        ∧ (thread cfg = Some TPoll → download_progress st = Some (announced model_size))
        ∧ thread cfg ≠ Some TPublish ∧ thread cfg ≠ Some TGrace
        ∧ thread cfg ≠ Some TExited
    | HandleStored =>
        ∃ m, r = inr m
             ∧ models st = <[model_size := Some m]> (models st0)
             ∧ current_model st = current_model st0
    | FlagCleared =>
        ∃ m, r = inr m
             ∧ models st = <[model_size := Some m]> (models st0)
             ∧ current_model st = current_model st0
             ∧ is_downloading st = false
    | CurrentSet =>
        ∃ m, r = inr m
             ∧ models st = <[model_size := Some m]> (models st0)
             ∧ current_model st = model_size
             ∧ is_downloading st = false
    | Caught e =>
        r = inl e ∧ models st = models st0 ∧ current_model st = current_model st0
    | CaughtCleared e =>
        r = inl e ∧ models st = models st0 ∧ current_model st = current_model st0
        ∧ is_downloading st = false
    | Returned raised =>
        is_downloading st = false
        ∧ (thread cfg = None ∨ thread cfg = Some TExited → download_progress st = None)
        ∧ match r with
          | inr m =>
              raised = None
              ∧ models st = <[model_size := Some m]> (models st0)
              ∧ current_model st = model_size
          | inl e =>
              raised = Some e
              ∧ models st = models st0
              ∧ current_model st = current_model st0
          end
    end.

End Lifecycle.

(** ** The [/load-model] endpoint and the start of a session *)

Module Endpoints.
Import Registry Session.

(** The answers of [POST /load-model].  The [except] branch of the
    endpoint is entered only when the existence check or the start of the
    thread fails, which the environment does not do. *)
Inductive LoadReply :=
| ReplyDownloading (model : string)
| ReplyLoading
| ReplySuccess (model : string).

(** [POST /load-model], lines 292-319: the answer, and the service once
    the thread it started has ended.  [joined] tells whether
    [thread.join(timeout=30)] saw the thread end.  The thread runs
    [load_model]; what it raises ends the thread and reaches nobody. *)
Definition load_model_endpoint (env : Env) (model : string) (joined : bool)
    (svc : TranscriptionService) : LoadReply * TranscriptionService :=
  let needs_download := negb (model_exists_locally env model) in
  let after_thread := (load_model env model svc).1.2 in
  (if needs_download then ReplyDownloading model
   else if joined then ReplySuccess model
   else ReplyLoading,
   after_thread).

(** Lines 337-341: [observe k] is [is_downloading] at the [k]-th
    evaluation of the loop test; the result is [wait_time] when the loop
    is left.  [fuel] is the number of seconds left below [max_wait]. *)
Fixpoint wait_while_downloading (observe : nat → bool) (wait_time fuel : nat) : nat :=
  match fuel with
  | O => wait_time
  | S fuel' =>
      if observe wait_time
      then wait_while_downloading observe (S wait_time) fuel'
      else wait_time
  end.

Definition max_wait : nat := 300.

Definition wait_for_download (observe : nat → bool) : nat :=
  wait_while_downloading observe 0 max_wait.

(** Lines 343-352 with the handler of lines 432-434: switch to the
    requested model.  The result tells whether the receive loop is
    entered, and gives the service afterwards. *)
Definition session_start (env : Env) (model : string) (svc : TranscriptionService)
    : M (bool * TranscriptionService) :=
  if negb (String.eqb model (current_model svc)) then
    send_json (model_loading model) ;;;
    match load_model env model svc with
    | (None, svc', _) =>
        send_json (model_loaded model) ;;;
        ret (true, svc')
    | (Some e, svc', _) =>
        logger_error ("WebSocket error: " +:+ str e) ;;;
        websocket_close ;;;
        ret (false, svc')
    end
  else ret (true, svc).

End Endpoints.

(** ** The rolling window as a function of the chunks alone *)

Module Buffering.

(** Feeding the chunks [cs] to a lane with buffer [buf] and threshold
    [size]: the buffer afterwards and the audio of each flush, oldest
    first. *)
Fixpoint windows (size : Z) (buf : list Chunk) (cs : list Chunk)
    : list Chunk * list Audio :=
  match cs with
  | [] => (buf, [])
  | c :: cs' =>
      let b := buf ++ [c] in
      if Z.of_nat (length b) >=? size then
        let '(buf', flushed) := windows size (slice_from (- (size / 4)) b) cs' in
        (buf', concat b :: flushed)
      else windows size b cs'
  end.

(** The events the receive loop may send: transcriptions of a fed lane
    whose stripped text is not empty, and errors. *)
Definition loop_event (instant : bool) (ev : Session.Event) : Prop :=
  match ev with
  | Session.transcription l data =>
      strip (seg_text data) ≠ "" ∧ Session.enabled instant l = true
  | Session.error _ => True
  | _ => False
  end.

(** A message that makes the loop leave: a disconnect, or a frame whose
    length is not a multiple of four bytes. *)
Definition leaves (msg : Session.Incoming) : Prop :=
  match msg with
  | Session.Disconnect => True
  | Session.Bytes data => (length data mod 4 ≠ 0)%nat
  end.

(** What leaving on [msg] does to the world: a disconnect is silent, a
    malformed frame is logged and the connection closed. *)
Definition left_on (msg : Session.Incoming) (w : Session.World) : Session.World :=
  match msg with
  | Session.Disconnect => w
  | Session.Bytes _ =>
      {| Session.sent := Session.sent w;
         Session.logged :=
           Session.logged w
           ++ ["WebSocket error: buffer size must be a multiple of element size"];
         Session.time_reads := Session.time_reads w;
         Session.calls := Session.calls w;
         Session.closed := true |}
  end.

End Buffering.

(** ** More concrete inputs *)

Module MoreExamples.
Import Registry Session Lifecycle Endpoints Examples.

(** Weights on disk that the constructor cannot read. *)
Definition env_corrupt : Env :=
  {| model_exists_locally := λ _, true;
     WhisperModel_new := λ _, inl (Exception "Unable to open file model.bin") |}.


(** A failed fetch, a successful one and a request for an unknown tier. *)
Definition three_loads : list (Env * string) :=
  [(env_offline, "medium"); (env_fetch, "large"); (env_fetch, "huge")].

(** The thread announces, the loader runs to its end, the thread follows. *)
Definition a_schedule : list Actor :=
  [Progress; Loader; Progress; Loader; Loader; Progress; Loader; Progress;
   Progress; Progress].

(** A frame of one byte. *)
Definition short_frame : Incoming := Bytes [x01].

End MoreExamples.

(** * Properties of the registry *)

Section RegistryFacts.
Import Registry.

Implicit Types (st : TranscriptionService) (env : Env) (model_size : string).

Lemma tiers_known_lookup st model_size :
  tiers_known st → (models st !! model_size = None ↔ model_size ∉ TIERS).
Proof.
  unfold tiers_known. intros Hdom.
  rewrite <- not_elem_of_dom. rewrite Hdom. clear Hdom.
  unfold TIERS. set_solver.
Qed.


(** While the constructor runs, only the in-progress flag may differ from
    the state before the call; in particular the current tier is still the
    old one. *)
Lemma load_begin_fields env model_size st :
  let st1 := (load_begin env model_size st).1.1 in
  models st1 = models st ∧ current_model st1 = current_model st
  ∧ download_progress st1 = download_progress st
  ∧ is_downloading st1
    = (negb (model_exists_locally env model_size) || is_downloading st).
Proof.
  unfold load_begin; simpl.
  destruct (model_exists_locally env model_size); simpl; auto.
Qed.

(** Every call of [load_model] keeps the key set of [models]. *)
Lemma load_model_tiers_known env model_size st :
  tiers_known st → tiers_known (load_model env model_size st).1.2.
Proof.
  unfold tiers_known, load_model. intros Hdom.
  destruct (models st !! model_size) as [[m|]|] eqn:Hlk; try exact Hdom.
  unfold load_begin, load_finish.
  apply elem_of_dom_2 in Hlk.
  assert (Hins : ∀ m, dom (<[model_size := Some m]> (models st)) = dom (models st)).
  { intros m. rewrite dom_insert_L. apply subseteq_union_1_L.
    apply singleton_subseteq_l. exact Hlk. }
  destruct (WhisperModel_new env (model_id_of model_size)) as [e|m];
    destruct (model_exists_locally env model_size);
    cbn [fst snd models set_download_progress set_current_model
         set_is_downloading set_models negb];
    rewrite ?Hins; exact Hdom.
Qed.

(** C10. A string that is not one of the five tier names makes [load_model]
    raise [ValueError] with the service left exactly as it was: the model
    table, the current tier, the in-progress flag and the published
    download status are the same record, and no effect (fetch, thread,
    log) was performed. *)
Theorem load_model_invalid_tier env model_size st :
  tiers_known st →
  model_size ∉ TIERS →
  load_model env model_size st
  = (Some (ValueError ("Invalid model size: " +:+ model_size)), st, []).
Proof.
  intros Hk Hnot. unfold load_model.
  apply (tiers_known_lookup st model_size Hk) in Hnot.
  rewrite Hnot. reflexivity.
Qed.

(** C6. When the tier already holds a loaded handle, [load_model] returns
    normally without consulting the disk, starting the progress thread or
    calling the constructor (its only effect is one log line); the model
    table, hence the tier's handle, the in-progress flag and the download
    status are unchanged, the tier becomes current, and calling it again
    changes nothing at all. *)
Theorem load_model_idempotent env env' model_size st m :
  models st !! model_size = Some (Some m) →
  ∃ st',
    load_model env model_size st
    = (None, st', [LogInfo ("Model " +:+ model_size +:+ " already loaded in memory")])
    ∧ models st' = models st
    ∧ models st' !! model_size = Some (Some m)
    ∧ current_model st' = model_size
    ∧ is_downloading st' = is_downloading st
    ∧ download_progress st' = download_progress st
    ∧ load_model env' model_size st'
      = (None, st', [LogInfo ("Model " +:+ model_size +:+ " already loaded in memory")]).
Proof.
  intros Hlk. exists (set_current_model model_size st).
  unfold load_model. rewrite Hlk. simpl. rewrite Hlk.
  repeat split; reflexivity.
Qed.

(** C7. When the constructor fails for a tier whose slot is empty,
    [load_model] re-raises the error after it has reset the in-progress
    flag and cleared the download status, so a poll right after the call
    finds nothing; the slot is still empty and the current tier is the one
    from before.  The same holds for the failure path entered from any
    state the service may be in when the constructor gives up
    ([load_finish]). *)
Theorem load_model_failure_clears env model_size st e :
  models st !! model_size = Some None →
  WhisperModel_new env (model_id_of model_size) = inl e →
  (∃ st' tr,
     load_model env model_size st = (Some e, st', tr)
     ∧ is_downloading st' = false
     ∧ poll_download_progress st' = None
     ∧ models st' = models st
     ∧ models st' !! model_size = Some None
     ∧ current_model st' = current_model st)
  ∧ (∀ nd mid,
       let '(r, st', _) := load_finish model_size nd (inl e) mid in
       r = Some e
       ∧ is_downloading st' = false
       ∧ poll_download_progress st' = None
       ∧ models st' = models mid
       ∧ current_model st' = current_model mid).
Proof.
  intros Hlk Hfail. split.
  - unfold load_model. rewrite Hlk, Hfail.
    unfold load_begin, load_finish.
    destruct (model_exists_locally env model_size); simpl;
      eexists _, _; (split; [reflexivity|]); simpl; auto.
  - intros nd mid. simpl. auto.
Qed.

(** The progress thread of a download that failed: at its next poll it
    sees the cleared flag, publishes the completion record, and clears it
    after the grace period. *)
Lemma progress_thread_after_flag_cleared model_size st :
  is_downloading st = false →
  let '(pc1, st1) := update_download_progress model_size Polling st in
  let '(pc2, st2) := update_download_progress model_size pc1 st1 in
  pc1 = Grace
  ∧ (status_is_downloading <$> poll_download_progress st1) = Some false
  ∧ pc2 = Finished
  ∧ poll_download_progress st2 = None
  ∧ is_downloading st2 = false.
Proof.
  intros Hd. unfold update_download_progress. rewrite Hd. simpl.
  rewrite Hd. repeat split; reflexivity.
Qed.

(** C8 (what the code does). While [medium] is being fetched from a service
    whose current tier is [small], the in-progress flag is set and the
    published status names [medium]; yet [/model-status] answers
    [is_downloading = false] for [medium] and [is_downloading = true] for
    [small], because it tests the flag against the current tier. *)
Theorem model_status_during_download :
  models Examples.serving !! "medium" = Some None
  ∧ current_model Examples.fetching_medium = "small"
  ∧ is_downloading Examples.fetching_medium = true
  ∧ (status_model <$> poll_download_progress Examples.fetching_medium) = Some "medium"
  ∧ ms_is_downloading (model_status Examples.fetching_medium "medium") = false
  ∧ ms_is_downloading (model_status Examples.fetching_medium "small") = true.
Proof. vm_compute. repeat split; reflexivity. Qed.

End RegistryFacts.

(** * Properties of the receive loop *)

Section ListFacts.
Context {A : Type}.
Implicit Types (b : list A) (k : Z).

(** [b[-k:]] keeps the last [k] elements when [1 <= k <= len(b)]. *)
Lemma slice_from_suffix k b :
  1 ≤ k ≤ Z.of_nat (length b) →
  slice_from (- k) b = drop (length b - Z.to_nat k) b
  ∧ length (slice_from (- k) b) = Z.to_nat k.
Proof.
  intros Hk. unfold slice_from.
  destruct (Z.ltb_spec (- k) 0) as [_|]; [|lia].
  replace (Z.to_nat (Z.max 0 (Z.of_nat (length b) + - k)))
    with (length b - Z.to_nat k)%nat by lia.
  split; [reflexivity|]. rewrite length_drop. lia.
Qed.

(** [b[-0:]] is [b[0:]]: the whole list. *)
Lemma slice_from_zero b : slice_from (- 0) b = b.
Proof. unfold slice_from. simpl. rewrite Z.min_l by lia. reflexivity. Qed.

Lemma snoc_neq (l : list A) (x : A) : l ++ [x] ≠ l.
Proof.
  intros H. apply (f_equal length) in H. rewrite length_app in H.
  simpl in H. lia.
Qed.

End ListFacts.

Section LoopFacts.
Import Registry Session.

Context (clock : nat → Q) (whisper : nat → Transcriber).

Implicit Types (l : Lane) (s : Locals) (w : World) (vad : Z) (instant : bool)
  (svc : TranscriptionService) (c : Chunk).

(** *** The duplicate filter *)

Lemma passes_filter_iff l s text now :
  passes_filter l s text now = true
  ↔ text ≠ "" ∧ (text ≠ last_text l s ∨ (cadence l < now - last_time l s)%Q).
Proof.
  unfold passes_filter.
  rewrite andb_true_iff, orb_true_iff, !negb_true_iff.
  assert (Ht : truthy text = true ↔ text ≠ "") by (destruct text; simpl; split; congruence).
  assert (He : String.eqb text (last_text l s) = false ↔ text ≠ last_text l s)
    by apply String.eqb_neq.
  assert (Hq : Qle_bool (now - last_time l s) (cadence l) = false
               ↔ (cadence l < now - last_time l s)%Q).
  { rewrite <- not_true_iff_false, Qle_bool_iff. split.
    - apply Qnot_le_lt.
    - apply Qlt_not_le. }
  rewrite Ht, He, Hq. reflexivity.
Qed.

Lemma emit_segment_unfold l seg s w :
  emit_segment clock l seg s w
  = let now := clock (time_reads w) in
    let text := strip (seg_text seg) in
    if passes_filter l s text now
    then (set_last l text now s,
          {| sent := sent w ++ [transcription l seg]; logged := logged w;
             time_reads := S (time_reads w); calls := calls w;
             closed := closed w |})
    else (s, {| sent := sent w; logged := logged w;
                time_reads := S (time_reads w); calls := calls w;
                closed := closed w |}).
Proof.
  unfold emit_segment, bind, time_time, send_json, ret. simpl.
  destruct (passes_filter _ _ _ _); reflexivity.
Qed.



(** *** What one iteration does to the buffers and to the adapter *)

Lemma emit_segment_frame l seg s w :
  let '(s', w') := emit_segment clock l seg s w in
  audio_buffer s' = audio_buffer s ∧ instant_buffer s' = instant_buffer s
  ∧ calls w' = calls w ∧ closed w' = closed w ∧ logged w' = logged w.
Proof.
  rewrite emit_segment_unfold. cbv zeta.
  destruct (passes_filter _ _ _ _); simpl; [destruct l|]; simpl; auto.
Qed.

Lemma for_each_emit_frame l segs s w :
  let '(s', w') := for_each (emit_segment clock l) segs s w in
  audio_buffer s' = audio_buffer s ∧ instant_buffer s' = instant_buffer s
  ∧ calls w' = calls w ∧ closed w' = closed w ∧ logged w' = logged w.
Proof.
  revert s w. induction segs as [|seg segs IH]; intros s w; simpl.
  - unfold ret. auto.
  - unfold bind. pose proof (emit_segment_frame l seg s w) as H1.
    destruct (emit_segment clock l seg s w) as [s1 w1].
    specialize (IH s1 w1).
    destruct (for_each (emit_segment clock l) segs s1 w1) as [s2 w2].
    intuition congruence.
Qed.

Lemma lane_calls_snoc l w (call : Call) (snt : list Event) lg tr cl :
  lane_calls l {| sent := snt; logged := lg; time_reads := tr;
                  calls := calls w ++ [call]; closed := cl |}
  = lane_calls l w ++ (if decide (call_lane call = l) then [call_audio call] else []).
Proof.
  unfold lane_calls. simpl. rewrite filter_app, fmap_app. f_equal.
  rewrite filter_cons, filter_nil. destruct (decide _); reflexivity.
Qed.

Lemma lane_calls_same l w w' : calls w' = calls w → lane_calls l w' = lane_calls l w.
Proof. unfold lane_calls. intros ->. reflexivity. Qed.

(** The final lane: lines 400-428 leave the instant buffer and the instant
    lane's calls alone; they flush exactly when the buffer has reached
    [buffer_size]. *)
Lemma final_lane_effect vad svc s w :
  let '(s', w') := final_lane clock whisper vad svc s w in
  instant_buffer s' = instant_buffer s
  ∧ lane_calls Instant w' = lane_calls Instant w
  ∧ closed w' = closed w
  ∧ if Z.of_nat (length (audio_buffer s)) >=? buffer_size vad
    then audio_buffer s' = slice_from (- (buffer_size vad / 4)) (audio_buffer s)
         ∧ lane_calls Final w' = lane_calls Final w ++ [concat (audio_buffer s)]
    else audio_buffer s' = audio_buffer s
         ∧ lane_calls Final w' = lane_calls Final w.
Proof.
  unfold final_lane.
  destruct (Z.of_nat (length (audio_buffer s)) >=? buffer_size vad).
  - unfold bind, call_adapter.
    destruct (transcribe_audio _ _ _ _) as [e|segs].
    + simpl. rewrite !lane_calls_snoc. simpl.
      rewrite app_nil_r. auto.
    + match goal with |- context [for_each ?f segs ?s0 ?w0] =>
        pose proof (for_each_emit_frame Final segs s0 w0) as H;
        destruct (for_each f segs s0 w0) as [s' w'] end.
      destruct H as (Ha & Hi & Hc & Hcl & _). simpl in *.
      rewrite Ha, Hi, Hcl. unfold lane_calls. rewrite Hc.
      fold (lane_calls Instant w). fold (lane_calls Final w).
      rewrite !filter_app, !fmap_app, !filter_cons, !filter_nil. simpl.
      rewrite app_nil_r. auto.
  - unfold ret. auto.
Qed.

(** The instant lane: lines 372-397 leave the final buffer and the final
    lane's calls alone. *)
Lemma instant_lane_effect vad svc c s w :
  let '(s', w') := instant_lane clock whisper vad svc c s w in
  let b := instant_buffer s ++ [c] in
  audio_buffer s' = audio_buffer s
  ∧ lane_calls Final w' = lane_calls Final w
  ∧ closed w' = closed w
  ∧ if Z.of_nat (length b) >=? instant_buffer_size
    then instant_buffer s' = slice_from (- (instant_buffer_size / 4)) b
         ∧ lane_calls Instant w' = lane_calls Instant w ++ [concat b]
    else instant_buffer s' = b
         ∧ lane_calls Instant w' = lane_calls Instant w.
Proof.
  unfold instant_lane. cbn [instant_buffer set_instant_buffer].
  destruct (Z.of_nat (length (instant_buffer s ++ [c])) >=? instant_buffer_size).
  - unfold bind, call_adapter.
    destruct (transcribe_audio _ _ _ _) as [e|segs].
    + simpl. rewrite !lane_calls_snoc. simpl.
      rewrite app_nil_r. auto.
    + match goal with |- context [for_each ?f segs ?s0 ?w0] =>
        pose proof (for_each_emit_frame Instant segs s0 w0) as H;
        destruct (for_each f segs s0 w0) as [s' w'] end.
      destruct H as (Ha & Hi & Hc & Hcl & _). simpl in *.
      rewrite Ha, Hi, Hcl. unfold lane_calls. rewrite Hc.
      fold (lane_calls Instant w). fold (lane_calls Final w).
      rewrite !filter_app, !fmap_app, !filter_cons, !filter_nil. simpl.
      rewrite app_nil_r. auto.
  - unfold ret. simpl. auto.
Qed.

(** One iteration on a well-formed frame goes on to the next message; a
    fed lane appends the chunk and flushes when that makes the buffer
    reach the lane's threshold, a lane that is not fed is untouched. *)
Lemma iteration_effect vad instant svc data c s w :
  frombuffer data = Some c →
  ∃ s' w',
    iteration clock whisper vad instant svc (Bytes data) s w = (Some s', w')
    ∧ closed w' = closed w
    ∧ ∀ l,
        if enabled instant l then
          let b := buffer_of l s ++ [c] in
          if Z.of_nat (length b) >=? threshold l vad
          then buffer_of l s' = slice_from (- (threshold l vad / 4)) b
               ∧ lane_calls l w' = lane_calls l w ++ [concat b]
          else buffer_of l s' = b ∧ lane_calls l w' = lane_calls l w
        else buffer_of l s' = buffer_of l s ∧ lane_calls l w' = lane_calls l w.
Proof.
  intros Hc. unfold iteration. rewrite Hc. unfold bind.
  set (s0 := set_audio_buffer (audio_buffer s ++ [c]) s).
  destruct instant.
  - pose proof (instant_lane_effect vad svc c s0 w) as HI.
    destruct (instant_lane clock whisper vad svc c s0 w) as [s1 w1].
    pose proof (final_lane_effect vad svc s1 w1) as HF.
    destruct (final_lane clock whisper vad svc s1 w1) as [s2 w2].
    exists s2, w2. unfold ret. split; [reflexivity|].
    destruct HI as (HIa & HIc & HIcl & HI), HF as (HFi & HFc & HFcl & HF).
    split; [congruence|].
    intros [|]; simpl.
    + rewrite HFi, HFc. exact HI.
    + rewrite HIa in HF. simpl in HF. rewrite HIc in HF. exact HF.
  - unfold ret. cbv beta iota.
    pose proof (final_lane_effect vad svc s0 w) as HF.
    destruct (final_lane clock whisper vad svc s0 w) as [s2 w2].
    exists s2, w2. split; [reflexivity|].
    destruct HF as (HFi & HFc & HFcl & HF).
    split; [congruence|].
    intros [|]; simpl.
    + split; assumption.
    + exact HF.
Qed.

Lemma run_cons vad instant svc msg rest s w :
  run clock whisper vad instant ((svc, msg) :: rest) s w
  = let '(r, w1) := iteration clock whisper vad instant svc msg s w in
    match r with
    | Some s1 => run clock whisper vad instant rest s1 w1
    | None => (None, w1)
    end.
Proof.
  cbn [run]. unfold bind.
  destruct (iteration clock whisper vad instant svc msg s w) as [[s1|] w1];
    reflexivity.
Qed.

Lemma run_app vad instant inputs1 inputs2 s w :
  run clock whisper vad instant (inputs1 ++ inputs2) s w
  = let '(r, w1) := run clock whisper vad instant inputs1 s w in
    match r with
    | Some s1 => run clock whisper vad instant inputs2 s1 w1
    | None => (None, w1)
    end.
Proof.
  revert s w. induction inputs1 as [|[svc msg] rest IH]; intros s w.
  - reflexivity.
  - rewrite <- app_comm_cons, !run_cons.
    destruct (iteration clock whisper vad instant svc msg s w) as [[s1|] w1].
    + apply IH.
    + reflexivity.
Qed.

Lemma chunks_of_cons svc msg rest cs :
  chunks_of ((svc, msg) :: rest) = Some cs →
  ∃ data c cs', msg = Bytes data ∧ frombuffer data = Some c
                ∧ chunks_of rest = Some cs' ∧ cs = c :: cs'.
Proof.
  simpl. destruct msg as [data|]; [|discriminate].
  destruct (frombuffer data) as [c|] eqn:Hc; [|discriminate].
  destruct (chunks_of rest) as [cs'|] eqn:Hr; [|discriminate].
  intros [= <-]. exists data, c, cs'. auto.
Qed.

Lemma chunks_of_nil inputs : chunks_of inputs = Some [] → inputs = [].
Proof.
  destruct inputs as [|[svc msg] rest]; [reflexivity|].
  intros H. apply chunks_of_cons in H as (? & ? & ? & _ & _ & _ & ?). discriminate.
Qed.

(** A window of messages that brings a fed lane's buffer exactly to its
    threshold: the loop is still running afterwards, the lane called the
    adapter once, at the last message, with the buffer followed by the
    window's chunks, and what it keeps is the slice [[-(threshold//4):]]
    of that sequence. *)
Lemma run_window vad instant l inputs cs s w :
  enabled instant l = true →
  chunks_of inputs = Some cs →
  cs ≠ [] →
  Z.of_nat (length (buffer_of l s ++ cs)) = threshold l vad →
  ∃ s' w',
    run clock whisper vad instant inputs s w = (Some s', w')
    ∧ lane_calls l w' = lane_calls l w ++ [concat (buffer_of l s ++ cs)]
    ∧ buffer_of l s'
      = slice_from (- (threshold l vad / 4)) (buffer_of l s ++ cs).
Proof.
  intros Hen. revert cs s w.
  induction inputs as [|[svc msg] rest IH]; intros cs s w Hcs Hne Hlen.
  - simpl in Hcs. congruence.
  - apply chunks_of_cons in Hcs as (data & c & cs' & -> & Hc & Hrest & ->).
    rewrite run_cons.
    destruct (iteration_effect vad instant svc data c s w Hc)
      as (s1 & w1 & -> & _ & Hl).
    specialize (Hl l). rewrite Hen in Hl. cbv zeta in Hl.
    destruct cs' as [|c' cs''].
    + apply chunks_of_nil in Hrest as ->. simpl.
      destruct (Z.geb_spec (Z.of_nat (length (buffer_of l s ++ [c]))) (threshold l vad));
        [|lia].
      destruct Hl as [Hb Hcalls]. unfold ret. eauto.
    + destruct (Z.geb_spec (Z.of_nat (length (buffer_of l s ++ [c]))) (threshold l vad)).
      { rewrite !length_app in *. simpl in *. lia. }
      destruct Hl as [Hb Hcalls].
      destruct (IH (c' :: cs'') s1 w1 Hrest) as (s' & w' & Hrun & Hc' & Hb').
      * discriminate.
      * rewrite Hb, <- app_assoc. exact Hlen.
      * exists s', w'. split; [exact Hrun|].
        rewrite Hc', Hb', Hcalls, Hb, <- !app_assoc. simpl. auto.
Qed.

(** *** Flush order *)


(** *** The buffers stay below their thresholds *)

Lemma threshold_ge_4 vad l : vad ≤ 13 → 4 ≤ threshold l vad.
Proof. destruct l; unfold threshold, buffer_size, instant_buffer_size; lia. Qed.

Lemma iteration_some vad instant svc msg s w s' w' :
  iteration clock whisper vad instant svc msg s w = (Some s', w') →
  ∃ data c, msg = Bytes data ∧ frombuffer data = Some c.
Proof.
  unfold iteration. destruct msg as [data|]; [|discriminate].
  destruct (frombuffer data) as [c|] eqn:Hc; [eauto|discriminate].
Qed.

Lemma iteration_below_threshold vad instant svc msg s w s' w' :
  vad ≤ 13 →
  below_threshold vad s →
  iteration clock whisper vad instant svc msg s w = (Some s', w') →
  below_threshold vad s'.
Proof.
  intros Hvad Hinv Hit.
  destruct (iteration_some _ _ _ _ _ _ _ _ Hit) as (data & c & -> & Hc).
  destruct (iteration_effect vad instant svc data c s w Hc)
    as (s1 & w1 & Hit1 & _ & Hl).
  rewrite Hit in Hit1. injection Hit1 as <- <-.
  intros l. specialize (Hl l). specialize (Hinv l).
  pose proof (threshold_ge_4 vad l Hvad) as H4.
  destruct (enabled instant l).
  - cbv zeta in Hl.
    destruct (Z.geb_spec (Z.of_nat (length (buffer_of l s ++ [c]))) (threshold l vad))
      as [Hge|Hlt]; destruct Hl as [-> _]; [|exact Hlt].
    destruct (slice_from_suffix (threshold l vad / 4) (buffer_of l s ++ [c])) as [_ ->].
    + split; [apply Z.div_le_lower_bound; lia|].
      etransitivity; [|exact Hge]. apply Z.div_le_upper_bound; lia.
    + rewrite Z2Nat.id by (apply Z.div_pos; lia).
      apply Z.div_lt_upper_bound; lia.
  - destruct Hl as [-> _]. exact Hinv.
Qed.

Lemma run_below_threshold vad instant inputs s w s' w' :
  vad ≤ 13 →
  below_threshold vad s →
  run clock whisper vad instant inputs s w = (Some s', w') →
  below_threshold vad s'.
Proof.
  intros Hvad. revert s w.
  induction inputs as [|[svc msg] rest IH]; intros s w Hinv Hrun.
  - injection Hrun as <- <-. exact Hinv.
  - rewrite run_cons in Hrun.
    destruct (iteration clock whisper vad instant svc msg s w) as [[s1|] w1] eqn:Hit;
      [|discriminate].
    eapply IH; [|exact Hrun].
    eapply iteration_below_threshold; eauto.
Qed.

(** C9. Whatever messages a session has handled since it started, for a
    sensitivity of at most 13 (the specified range 1..5 included): when it
    is waiting for the next message each lane's buffer holds strictly
    fewer chunks than the lane's threshold ([30 - 2*vad] for final, [8]
    for instant), so that with the next chunk appended, just before the
    flush test, it holds at most the threshold. *)
Theorem buffers_below_threshold_at_wait vad instant inputs w s' w' :
  vad ≤ 13 →
  run clock whisper vad instant inputs initial w = (Some s', w') →
  ∀ l,
    threshold l vad = match l with Final => 30 - 2 * vad | Instant => 8 end
    ∧ Z.of_nat (length (buffer_of l s')) < threshold l vad
    ∧ ∀ c, Z.of_nat (length (buffer_of l s' ++ [c])) ≤ threshold l vad.
Proof.
  intros Hvad Hrun l.
  assert (Hinit : below_threshold vad initial).
  { intros l'. pose proof (threshold_ge_4 vad l' Hvad).
    destruct l'; [change (0 < threshold Instant vad)
                 | change (0 < threshold Final vad)]; lia. }
  pose proof (run_below_threshold _ _ _ _ _ _ _ Hvad Hinit Hrun l) as Hlt.
  split; [destruct l; unfold threshold, buffer_size, instant_buffer_size; lia|].
  split; [exact Hlt|].
  intros c. rewrite length_app. simpl. lia.
Qed.

(** *** When a lane flushes and what it keeps *)

(** C2. For a sensitivity of at most 13 (the specified range 1..5
    included), a fed lane whose buffer is below its threshold when a
    well-formed frame arrives: the lane calls the adapter during this
    iteration if and only if the appended chunk makes the count equal to
    the threshold, and it then keeps exactly the last [threshold // 4]
    chunks; otherwise it keeps everything.  Scenario A: with sensitivity 3
    the final threshold is 24; any 24 well-formed frames from the start of
    a session cause one final-lane call, with all 24 chunks, and leave the
    last 6 of them in the buffer. *)
Theorem flush_at_threshold_keeps_quarter vad instant l svc data c s w :
  vad ≤ 13 →
  enabled instant l = true →
  frombuffer data = Some c →
  Z.of_nat (length (buffer_of l s)) < threshold l vad →
  (∃ s' w',
     iteration clock whisper vad instant svc (Bytes data) s w = (Some s', w')
     ∧ let b := buffer_of l s ++ [c] in
       let T := threshold l vad in
       (lane_calls l w' = lane_calls l w ++ [concat b] ↔ Z.of_nat (length b) = T)
       ∧ (lane_calls l w' = lane_calls l w ↔ Z.of_nat (length b) < T)
       ∧ (Z.of_nat (length b) = T →
          buffer_of l s' = drop (length b - Z.to_nat (T / 4)) b
          ∧ Z.of_nat (length (buffer_of l s')) = T / 4)
       ∧ (Z.of_nat (length b) < T → buffer_of l s' = b))
  ∧ (buffer_size 3 = 24
     ∧ ∀ instant' inputs cs w0,
         chunks_of inputs = Some cs →
         length cs = 24%nat →
         ∃ s24 w24,
           run clock whisper 3 instant' inputs initial w0 = (Some s24, w24)
           ∧ lane_calls Final w24 = lane_calls Final w0 ++ [concat cs]
           ∧ audio_buffer s24 = drop 18 cs
           ∧ length (audio_buffer s24) = 6%nat).
Proof.
  intros Hvad Hen Hc Hinv. split.
  - destruct (iteration_effect vad instant svc data c s w Hc)
      as (s' & w' & Hit & _ & Hl).
    exists s', w'. split; [exact Hit|].
    specialize (Hl l). rewrite Hen in Hl. cbv zeta in *.
    pose proof (threshold_ge_4 vad l Hvad) as H4.
    assert (Hlen : Z.of_nat (length (buffer_of l s ++ [c]))
                   = Z.of_nat (length (buffer_of l s)) + 1)
      by (rewrite length_app; simpl; lia).
    destruct (Z.geb_spec (Z.of_nat (length (buffer_of l s ++ [c]))) (threshold l vad))
      as [Hge|Hlt]; destruct Hl as [Hb Hcalls].
    + assert (Heq : Z.of_nat (length (buffer_of l s ++ [c])) = threshold l vad) by lia.
      destruct (slice_from_suffix (threshold l vad / 4) (buffer_of l s ++ [c]))
        as [Hdrop Hlen'].
      { split; [apply Z.div_le_lower_bound; lia|].
        etransitivity; [|exact Hge]. apply Z.div_le_upper_bound; lia. }
      rewrite Hdrop in Hb.
      split; [tauto|].
      split; [split; [intros H; rewrite Hcalls in H; exfalso; revert H; apply snoc_neq | lia]|].
      split; [|lia]. intros _. split; [exact Hb|].
      rewrite Hb, <- Hdrop, Hlen'. apply Z2Nat.id, Z.div_pos; lia.
    + split; [split; [intros H; rewrite Hcalls in H; symmetry in H; exfalso; revert H;
                      apply snoc_neq | lia]|].
      split; [tauto|]. split; [lia|]. auto.
  - split; [reflexivity|].
    intros instant' inputs cs w0 Hcs Hlen.
    destruct (run_window 3 instant' Final inputs cs initial w0)
      as (s24 & w24 & Hrun & Hcalls & Hbuf); try done.
    { intros ->. discriminate. }
    { change (buffer_of Final initial) with (@nil Chunk). simpl.
      rewrite Hlen. reflexivity. }
    exists s24, w24. change (buffer_of Final initial ++ cs) with cs in *.
    change (buffer_of Final s24) with (audio_buffer s24) in Hbuf.
    change (threshold Final 3 / 4) with 6 in Hbuf.
    destruct (slice_from_suffix 6 cs) as [Hdrop Hlen']; [lia|].
    rewrite Hlen in Hdrop. simpl in Hdrop.
    repeat split; [exact Hrun | exact Hcalls | congruence | ].
    rewrite Hbuf, Hlen'. reflexivity.
Qed.

(** *** Adapter failures *)






(** *** Parameters derived from the sensitivity *)

(** C4. For a sensitivity between 1 and 5 the final lane's threshold is
    [30 - 2*vad], which is at least 2 (in fact between 20 and 28), and
    the adapter calls the loaded model with beam size [max 1 (6 - vad)],
    Swedish as language and the voice-activity filter on; the outcome of
    that call decides the adapter's result. *)
Theorem threshold_and_beam_from_sensitivity vad :
  1 ≤ vad ≤ 5 →
  buffer_size vad = 30 - 2 * vad
  ∧ threshold Final vad = 30 - 2 * vad
  ∧ 2 ≤ buffer_size vad
  ∧ 20 ≤ buffer_size vad ≤ 28
  ∧ 1 ≤ Z.max 1 (6 - vad) ≤ 5
  ∧ ∀ (transcribe : Transcriber) svc m audio,
      models svc !! current_model svc = Some (Some m) →
      transcribe_audio transcribe svc audio vad
      = match transcribe m audio "sv" (Z.max 1 (6 - vad)) true with
        | inl e => inl e
        | inr segments => inr (stripped <$> segments)
        end.
Proof.
  intros Hvad. unfold threshold, buffer_size.
  repeat (split; [lia|]).
  intros transcribe svc m audio Hm. unfold transcribe_audio. rewrite Hm.
  reflexivity.
Qed.

End LoopFacts.

(** * Concrete runs *)

Section Runs.
Import Registry Session Examples.

(** Scenario B of the specification: the same word heard again 1.5 s
    after it was emitted is dropped by the final lane and sent by the
    instant lane. *)
Example same_text_after_one_and_a_half_seconds :
  let seg := {| seg_text := "hej"; seg_start := 0%Q; seg_end := 1%Q |} in
  let clock (n : nat) : Q := match n with O => 0%Q | _ => 1.5%Q end in
  sent (for_each (emit_segment clock Final) [seg; seg] initial fresh_world).2
  = [transcription Final seg]
  ∧ sent (for_each (emit_segment clock Instant) [seg; seg] initial fresh_world).2
    = [transcription Instant seg; transcription Instant seg].
Proof. vm_compute. split; reflexivity. Qed.

(** Outside the range covered by C2 and C9: with [vad = 14] the threshold
    is 2 and [buffer_size // 4] is 0, so the slice [[-0:]] keeps the whole
    buffer and the buffer is not below the threshold after the flush. *)
Example sensitivity_14_keeps_whole_buffer :
  buffer_size 14 = 2
  ∧ (audio_buffer <$> (run tick always_hej 14 false (frames 1 2) initial fresh_world).1)
    = Some (chunks 1 2).
Proof. vm_compute. split; reflexivity. Qed.

Lemma load_model_invalid_tier_witness :
  load_model env_fetch "huge" serving
  = (Some (ValueError "Invalid model size: huge"), serving, []).
Proof.
  apply (load_model_invalid_tier env_fetch "huge" serving).
  - vm_compute. reflexivity.
  - apply (bool_decide_unpack _). vm_compute. exact I.
Defined.

Lemma load_model_idempotent_witness :
  ∃ st',
    load_model env_offline "small" serving
    = (None, st', [LogInfo "Model small already loaded in memory"])
    ∧ models st' !! "small" = Some (Some 1%nat)
    ∧ current_model st' = "small".
Proof.
  destruct (load_model_idempotent env_offline env_offline "small" serving 1%nat)
    as (st' & Hload & _ & Hm & Hcur & _).
  - vm_compute. reflexivity.
  - exists st'. split; [exact Hload|]. split; [exact Hm | exact Hcur].
Defined.

Lemma load_model_failure_clears_witness :
  ∃ st' tr,
    load_model env_offline "medium" serving
    = (Some (Exception "Connection refused"), st', tr)
    ∧ is_downloading st' = false
    ∧ poll_download_progress st' = None
    ∧ models st' !! "medium" = Some None
    ∧ current_model st' = "small".
Proof.
  destruct (load_model_failure_clears env_offline "medium" serving
              (Exception "Connection refused"))
    as [(st' & tr & Hload & Hd & Hp & _ & Hm & Hcur) _].
  - vm_compute. reflexivity.
  - reflexivity.
  - exists st', tr. repeat split; assumption.
Defined.

Lemma threshold_and_beam_from_sensitivity_witness :
  buffer_size 3 = 24
  ∧ transcribe_audio hej serving [0] 3
    = inr [{| seg_text := "hej"; seg_start := 0%Q; seg_end := 1%Q |}].
Proof.
  destruct (threshold_and_beam_from_sensitivity 3) as (Hsize & _ & _ & _ & _ & Hcall).
  - lia.
  - split; [exact Hsize|].
    rewrite (Hcall hej serving 1%nat [0]).
    + reflexivity.
    + vm_compute. reflexivity.
Defined.

Lemma flush_at_threshold_keeps_quarter_witness :
  ∃ s' w',
    iteration tick always_hej 3 true serving (Bytes (frame_of 24)) nearly_full fresh_world
    = (Some s', w')
    ∧ lane_calls Final w' = [concat (chunks 1 24)]
    ∧ audio_buffer s' = chunks 19 6.
Proof.
  destruct (flush_at_threshold_keeps_quarter tick always_hej 3 true Final serving
              (frame_of 24) [24] nearly_full fresh_world)
    as [(s' & w' & Hit & Hcall & _ & Hkeep & _) _].
  - lia.
  - reflexivity.
  - reflexivity.
  - vm_compute. reflexivity.
  - exists s', w'. split; [exact Hit|]. split.
    + apply Hcall. reflexivity.
    + apply Hkeep. reflexivity.
Defined.



Lemma buffers_below_threshold_at_wait_witness :
  Z.of_nat (length (buffer_of Final (after_thirty_frames).1)) < threshold Final 3
  ∧ Z.of_nat (length (buffer_of Instant (after_thirty_frames).1)) < threshold Instant 3.
Proof.
  assert (Hrun : run tick always_hej 3 true (frames 1 30) initial fresh_world
                 = (Some (after_thirty_frames).1, (after_thirty_frames).2))
    by (vm_compute; reflexivity).
  assert (Hvad : 3 ≤ 13) by lia.
  pose proof (buffers_below_threshold_at_wait tick always_hej 3 true (frames 1 30)
                fresh_world (after_thirty_frames).1 (after_thirty_frames).2
                Hvad Hrun) as H.
  split.
  - exact (proj1 (proj2 (H Final))).
  - exact (proj1 (proj2 (H Instant))).
Defined.

End Runs.

(** * Further properties of the registry *)

Section RegistryLifecycle.
Import Registry Lifecycle.

Implicit Types (st : TranscriptionService) (env : Env) (model_size : string).

(** A successful fetch installs the handle under the requested tier and
    nowhere else, makes the tier current and leaves no download state.
    The constructor is called once, with the identifier
    [KBLab/kb-whisper-<tier>], and the progress thread is started exactly
    when the weights were not on disk. *)
Theorem load_model_success env model_size st m :
  models st !! model_size = Some None →
  WhisperModel_new env (model_id_of model_size) = inr m →
  ∃ st' tr,
    load_model env model_size st = (None, st', tr)
    ∧ models st' !! model_size = Some (Some m)
    ∧ (∀ other, other ≠ model_size → models st' !! other = models st !! other)
    ∧ current_model st' = model_size
    ∧ is_downloading st' = false
    ∧ download_progress st' = None
    ∧ fetches tr = ["KBLab/kb-whisper-" +:+ model_size]
    ∧ (StartProgressThread model_size ∈ tr
       ↔ model_exists_locally env model_size = false).
Proof.
  intros Hlk Hok. unfold load_model. rewrite Hlk, Hok.
  unfold load_begin, load_finish.
  destruct (model_exists_locally env model_size) eqn:Hex; simpl;
    eexists _, _; (split; [reflexivity|]); simpl.
  - rewrite lookup_insert_eq.
    repeat split; try reflexivity.
    + intros other Hne. apply lookup_insert_ne. congruence.
    + intros Hin. repeat (apply elem_of_cons in Hin as [Hin|Hin]; [discriminate|]).
      inversion Hin.
    + discriminate.
  - rewrite lookup_insert_eq.
    repeat split; try reflexivity.
    + intros other Hne. apply lookup_insert_ne. congruence.
    + intros _. set_solver.
Qed.

Lemma load_model_keeps_loaded env model_size st tier m :
  models st !! tier = Some (Some m) →
  models (load_model env model_size st).1.2 !! tier = Some (Some m).
Proof.
  intros Hm. unfold load_model.
  destruct (models st !! model_size) as [[m'|]|] eqn:Hlk; simpl; try exact Hm.
  unfold load_begin, load_finish.
  assert (Hne : model_size ≠ tier) by congruence.
  destruct (WhisperModel_new env (model_id_of model_size)) as [e|m'];
    destruct (model_exists_locally env model_size); simpl;
    rewrite ?lookup_insert_ne by exact Hne; exact Hm.
Qed.

(** No eviction: a handle that is loaded stays loaded, and stays the same
    object, through any sequence of [load_model] calls, whatever tiers
    they name and however they end. *)
Theorem loaded_handle_persists (calls : list (Env * string)) st tier m :
  models st !! tier = Some (Some m) →
  models (loads calls st) !! tier = Some (Some m).
Proof.
  revert st. induction calls as [|[env model_size] calls IH]; intros st Hm.
  - exact Hm.
  - simpl. apply IH. apply load_model_keeps_loaded. exact Hm.
Qed.

Lemma load_model_healthy env model_size st :
  healthy st → healthy (load_model env model_size st).1.2.
Proof.
  intros (Hk & [m Hcur] & Hd & Hp).
  split; [apply load_model_tiers_known; exact Hk|].
  pose proof (load_model_keeps_loaded env model_size st _ m Hcur) as Hkeep.
  revert Hkeep. unfold load_model.
  destruct (models st !! model_size) as [[m'|]|] eqn:Hlk; simpl.
  - intros _. repeat split; eauto.
  - unfold load_begin, load_finish.
    destruct (WhisperModel_new env (model_id_of model_size)) as [e|m'];
      destruct (model_exists_locally env model_size); simpl; intros Hkeep;
      repeat split; eauto; rewrite lookup_insert_eq; eauto.
  - intros _. repeat split; eauto.
Qed.

(** A call that returns normally leaves the requested tier loaded and
    current, and leaves no download state if there was none. *)
Lemma load_model_returns env model_size st st' tr :
  load_model env model_size st = (None, st', tr) →
  ∃ m,
    models st' !! model_size = Some (Some m)
    ∧ current_model st' = model_size
    ∧ (is_downloading st = false ∧ download_progress st = None →
       is_downloading st' = false ∧ download_progress st' = None).
Proof.
  unfold load_model.
  destruct (models st !! model_size) as [[m|]|] eqn:Hlk.
  - intros [= <- <-]. exists m. simpl. auto.
  - unfold load_begin, load_finish.
    destruct (WhisperModel_new env (model_id_of model_size)) as [e|m];
      destruct (model_exists_locally env model_size); simpl;
      intros [= <- <-]; exists m; simpl; rewrite lookup_insert_eq; auto.
  - discriminate.
Qed.


End RegistryLifecycle.

(** * The loader and the progress thread, interleaved *)

Section DownloadFacts.
Import Registry Lifecycle.

Implicit Types (st : TranscriptionService) (env : Env) (model_size : string)
  (r : exn + WhisperModel) (cfg : Config) (schedule : list Actor).

Lemma start_reached env model_size r st :
  reached env model_size r st (start env model_size st).
Proof.
  unfold reached, start, load_begin.
  destruct (model_exists_locally env model_size); simpl;
    repeat split; try congruence; try discriminate.
Qed.

Lemma step_reached env model_size r st0 cfg a :
  reached env model_size r st0 cfg →
  reached env model_size r st0 (step model_size r cfg a).
Proof.
  destruct cfg as [lpc tpc st]. unfold reached, step. cbn [loader thread service].
  intros [Hth Hl]. destruct a.
  - (* the loader moves *)
    destruct lpc; cbn [loader_step loader thread service].
    + destruct r as [e|m]; cbn [loader thread service]; (split; [exact Hth|]).
      * destruct Hl as (? & ? & _). auto.
      * destruct Hl as (Hm & ? & _). exists m. simpl. rewrite Hm. auto.
    + split; [exact Hth|]. destruct Hl as (m & ? & ? & ?). exists m. simpl. auto.
    + split; [exact Hth|]. destruct Hl as (m & ? & ? & ? & ?). exists m. simpl. auto.
    + split; [exact Hth|]. destruct Hl as (m & -> & ? & ? & ?). simpl. auto.
    + split; [exact Hth|]. destruct Hl as (? & ? & ?). simpl. auto.
    + split; [exact Hth|]. destruct Hl as (-> & ? & ? & ?). simpl. auto.
    + split; [exact Hth|]. exact Hl.
  - (* the progress thread moves *)
    destruct tpc as [tpc|]; [|split; [exact Hth | exact Hl]].
    assert (Hth' : ∀ tpc' : thread_pc,
               Some tpc' = None ↔ negb (model_exists_locally env model_size) = false).
    { intros tpc'. split; [discriminate|]. intros H. apply Hth in H. discriminate. }
    assert (Hnd : negb (model_exists_locally env model_size) = true).
    { destruct (negb (model_exists_locally env model_size)); [reflexivity|].
      destruct Hth as [_ Hth]. specialize (Hth eq_refl). discriminate. }
    clear Hth.
    destruct tpc; cbn [thread_step]; try destruct (is_downloading st) eqn:Hflag;
      cbn [loader thread service]; (split; [apply Hth'|]);
      destruct lpc; cbn [service download_progress set_download_progress models
                         current_model is_downloading] in *;
      repeat match goal with
             | H : _ ∧ _ |- _ => destruct H
             | H : ∃ _, _ |- _ => destruct H
             end;
      try congruence;
      try (exfalso; match goal with H : ?x = true → _ , H' : ?x = true |- _ =>
                      specialize (H H'); congruence end);
      repeat match goal with
             | |- ∃ _, _ => eexists
             | |- _ ∧ _ => split
             end; eauto; try congruence;
      try (intros [?|?]; congruence).
Qed.

Lemma interleave_reached env model_size r st0 schedule cfg :
  reached env model_size r st0 cfg →
  reached env model_size r st0 (interleave model_size r schedule cfg).
Proof.
  revert cfg. induction schedule as [|a schedule IH]; intros cfg H; [exact H|].
  simpl. apply IH. apply step_reached. exact H.
Qed.

(** Whatever the interleaving of the loader with the progress thread,
    once both have ended nothing is published and the flag is down; after
    a successful fetch the handle is installed and the tier is current,
    after a failed one the table and the current tier are as before and
    the loader has re-raised the constructor's error. *)
Theorem download_settles env model_size r st schedule :
  let cfg := interleave model_size r schedule (start env model_size st) in
  finished cfg →
  poll_download_progress (service cfg) = None
  ∧ is_downloading (service cfg) = false
  ∧ match r with
    | inr m =>
        loader cfg = Returned None
        ∧ models (service cfg) = <[model_size := Some m]> (models st)
        ∧ current_model (service cfg) = model_size
    | inl e =>
        loader cfg = Returned (Some e)
        ∧ models (service cfg) = models st
        ∧ current_model (service cfg) = current_model st
    end.
Proof.
  intros cfg [[raised Hl] Hth].
  pose proof (interleave_reached env model_size r st schedule _
                (start_reached env model_size r st)) as [_ H].
  fold cfg in H. rewrite Hl in H. destruct H as (Hflag & Hp & Hr).
  split; [exact (Hp Hth)|]. split; [exact Hflag|].
  destruct r as [e|m]; destruct Hr as (-> & ? & ?); auto.
Qed.


Lemma interleave_app model_size r schedule1 schedule2 cfg :
  interleave model_size r (schedule1 ++ schedule2) cfg
  = interleave model_size r schedule2 (interleave model_size r schedule1 cfg).
Proof. unfold interleave. apply foldl_app. Qed.

(** No interleaving can get stuck: from wherever a schedule has brought
    the two actors, four more turns of the loader followed by four turns
    of the thread end both. *)
Theorem download_can_finish env model_size r st schedule :
  finished (interleave model_size r
              (schedule ++ replicate 4 Loader ++ replicate 4 Progress)
              (start env model_size st)).
Proof.
  rewrite !interleave_app.
  set (cfg1 := interleave model_size r schedule (start env model_size st)).
  set (cfg2 := interleave model_size r (replicate 4 Loader) cfg1).
  assert (H2 : reached env model_size r st cfg2).
  { apply interleave_reached, interleave_reached, start_reached. }
  assert (Hl : ∃ raised, loader cfg2 = Returned raised).
  { subst cfg2. destruct cfg1 as [lpc tpc st1].
    destruct lpc, r; simpl; eauto. }
  destruct Hl as [raised Hl].
  destruct cfg2 as [lpc tpc st2]. simpl in Hl. subst lpc.
  destruct H2 as [_ (Hflag & _)]. simpl in Hflag.
  unfold finished.
  destruct tpc as [[| | | |]|]; simpl; rewrite ?Hflag; simpl; eauto.
Qed.

(** With no thread in between, the small steps of the loader add up to
    [load_model]: same exception, same service. *)
Theorem loader_steps_are_load_model env model_size st :
  models st !! model_size = Some None →
  let cfg := interleave model_size (WhisperModel_new env (model_id_of model_size))
               (replicate 4 Loader) (start env model_size st) in
  loader cfg = Returned (load_model env model_size st).1.1
  ∧ service cfg = (load_model env model_size st).1.2.
Proof.
  intros Hlk. unfold load_model. rewrite Hlk.
  unfold start, load_begin, load_finish.
  destruct (WhisperModel_new env (model_id_of model_size)) as [e|m];
    destruct (model_exists_locally env model_size); simpl; split; reflexivity.
Qed.

End DownloadFacts.

(** * Further properties of the receive loop *)

Section LoopMore.
Import Registry Session Buffering.

Context (clock : nat → Q) (whisper : nat → Transcriber).

Implicit Types (l : Lane) (s : Locals) (w : World) (vad : Z) (instant : bool)
  (svc : TranscriptionService) (c : Chunk).

(** From any locals, well-formed frames are handled to the end; each
    fed lane follows [windows], a lane that is not fed is left alone. *)
Lemma run_windows vad instant inputs cs s w :
  chunks_of inputs = Some cs →
  ∃ s' w',
    run clock whisper vad instant inputs s w = (Some s', w')
    ∧ closed w' = closed w
    ∧ ∀ l,
        if enabled instant l then
          buffer_of l s' = (windows (threshold l vad) (buffer_of l s) cs).1
          ∧ lane_calls l w'
            = lane_calls l w ++ (windows (threshold l vad) (buffer_of l s) cs).2
        else buffer_of l s' = buffer_of l s ∧ lane_calls l w' = lane_calls l w.
Proof.
  revert cs s w. induction inputs as [|[svc msg] rest IH]; intros cs s w Hcs.
  - injection Hcs as <-. exists s, w. split; [reflexivity|]. split; [reflexivity|].
    intros l. destruct (enabled instant l); simpl; rewrite ?app_nil_r; auto.
  - apply chunks_of_cons in Hcs as (data & c & cs' & -> & Hc & Hrest & ->).
    rewrite run_cons.
    destruct (iteration_effect clock whisper vad instant svc data c s w Hc)
      as (s1 & w1 & -> & Hcl1 & Hl1).
    destruct (IH cs' s1 w1 Hrest) as (s' & w' & Hrun & Hcl & Hl).
    exists s', w'. split; [exact Hrun|]. split; [congruence|].
    intros l. specialize (Hl1 l). specialize (Hl l).
    destruct (enabled instant l).
    + cbv zeta in Hl1. cbn [windows].
      destruct (Z.of_nat (length (buffer_of l s ++ [c])) >=? threshold l vad);
        destruct Hl1 as [Hb1 Hc1], Hl as [Hb Hcalls]; rewrite Hb1 in *.
      * destruct (windows (threshold l vad) _ cs') as [buf' flushed] eqn:Hw.
        simpl in *. rewrite Hb, Hcalls, Hc1, <- app_assoc. auto.
      * rewrite Hb, Hcalls, Hc1. auto.
    + destruct Hl1 as [Hb1 Hc1], Hl as [Hb Hcalls]. split; congruence.
Qed.

(** A session handles every sequence of well-formed frames to the end,
    without closing the connection, whatever the adapter answers.  What
    the final lane holds afterwards and the audio of each of its flushes
    are those of [windows] from the empty buffer with threshold
    [30 - 2*vad]: they depend on the chunks received only, not on the
    clock, the model, the service or instant mode.  In instant mode the
    same holds of the instant lane with threshold 8; without it the
    instant buffer stays empty and the instant lane never calls the
    adapter. *)
Theorem run_follows_windows vad instant inputs cs w :
  chunks_of inputs = Some cs →
  ∃ s' w',
    run clock whisper vad instant inputs initial w = (Some s', w')
    ∧ closed w' = closed w
    ∧ audio_buffer s' = (windows (30 - vad * 2) [] cs).1
    ∧ lane_calls Final w' = lane_calls Final w ++ (windows (30 - vad * 2) [] cs).2
    ∧ if instant then
        instant_buffer s' = (windows 8 [] cs).1
        ∧ lane_calls Instant w' = lane_calls Instant w ++ (windows 8 [] cs).2
      else instant_buffer s' = [] ∧ lane_calls Instant w' = lane_calls Instant w.
Proof.
  intros Hcs.
  destruct (run_windows vad instant inputs cs initial w Hcs)
    as (s' & w' & Hrun & Hcl & Hl).
  exists s', w'. split; [exact Hrun|]. split; [exact Hcl|].
  pose proof (Hl Final) as [Hfb Hfc]. pose proof (Hl Instant) as Hi.
  split; [exact Hfb|]. split; [exact Hfc|].
  cbn [enabled] in Hi. destruct instant; exact Hi.
Qed.

(** *** What the loop sends *)

Lemma for_each_emit_sent l segs s w :
  ∃ new,
    sent (for_each (emit_segment clock l) segs s w).2 = sent w ++ new
    ∧ Forall (λ ev, ∃ data, ev = transcription l data ∧ strip (seg_text data) ≠ "") new.
Proof.
  revert s w. induction segs as [|seg segs IH]; intros s w.
  - exists []. simpl. rewrite app_nil_r. auto.
  - cbn [for_each]. unfold bind. rewrite emit_segment_unfold. cbv zeta.
    destruct (passes_filter l s (strip (seg_text seg)) (clock (time_reads w))) eqn:Hp.
    + apply (passes_filter_iff l s) in Hp as [Hne _].
      match goal with |- context [for_each _ segs ?s1 ?w1] =>
        destruct (IH s1 w1) as (new & Hs & Hall) end.
      exists (transcription l seg :: new). rewrite Hs. simpl.
      rewrite <- app_assoc. split; [reflexivity|].
      constructor; [eauto | exact Hall].
    + match goal with |- context [for_each _ segs ?s1 ?w1] =>
        destruct (IH s1 w1) as (new & Hs & Hall) end.
      exists new. rewrite Hs. auto.
Qed.

Lemma Forall_loop_event instant l new :
  enabled instant l = true →
  Forall (λ ev, ∃ data, ev = transcription l data ∧ strip (seg_text data) ≠ "") new →
  Forall (loop_event instant) new.
Proof.
  intros Hen Hall. eapply Forall_impl; [exact Hall|].
  intros ev (data & -> & Hne). simpl. auto.
Qed.

Lemma final_lane_sent vad instant svc s w :
  ∃ new,
    sent (final_lane clock whisper vad svc s w).2 = sent w ++ new
    ∧ Forall (loop_event instant) new.
Proof.
  unfold final_lane.
  destruct (Z.of_nat (length (audio_buffer s)) >=? buffer_size vad).
  - unfold bind, call_adapter.
    destruct (transcribe_audio _ _ _ _) as [e|segs].
    + exists [error (str e)]. simpl. split; [reflexivity|].
      constructor; [exact I | constructor].
    + match goal with |- context [for_each _ segs ?s1 ?w1] =>
        destruct (for_each_emit_sent Final segs s1 w1) as (new & Hs & Hall) end.
      exists new. split; [exact Hs|].
      apply (Forall_loop_event instant Final); [reflexivity | exact Hall].
  - exists []. unfold ret. simpl. rewrite app_nil_r. auto.
Qed.

Lemma instant_lane_sent vad svc c s w :
  ∃ new,
    sent (instant_lane clock whisper vad svc c s w).2 = sent w ++ new
    ∧ Forall (loop_event true) new.
Proof.
  unfold instant_lane. cbn [instant_buffer set_instant_buffer].
  destruct (Z.of_nat (length (instant_buffer s ++ [c])) >=? instant_buffer_size).
  - unfold bind, call_adapter.
    destruct (transcribe_audio _ _ _ _) as [e|segs].
    + exists []. simpl. rewrite app_nil_r. auto.
    + match goal with |- context [for_each _ segs ?s1 ?w1] =>
        destruct (for_each_emit_sent Instant segs s1 w1) as (new & Hs & Hall) end.
      exists new. split; [exact Hs|].
      apply (Forall_loop_event true Instant); [reflexivity | exact Hall].
  - exists []. unfold ret. simpl. rewrite app_nil_r. auto.
Qed.

Lemma iteration_sent vad instant svc msg s w :
  ∃ new,
    sent (iteration clock whisper vad instant svc msg s w).2 = sent w ++ new
    ∧ Forall (loop_event instant) new.
Proof.
  unfold iteration. destruct msg as [data|].
  - destruct (frombuffer data) as [c|].
    + unfold bind.
      set (s0 := set_audio_buffer (audio_buffer s ++ [c]) s).
      destruct instant.
      * destruct (instant_lane_sent vad svc c s0 w) as (new1 & Hs1 & H1).
        destruct (instant_lane clock whisper vad svc c s0 w) as [s1 w1].
        destruct (final_lane_sent vad true svc s1 w1) as (new2 & Hs2 & H2).
        destruct (final_lane clock whisper vad svc s1 w1) as [s2 w2].
        exists (new1 ++ new2). simpl in *. rewrite Hs2, Hs1, <- app_assoc.
        split; [reflexivity | apply Forall_app; auto].
      * unfold ret. cbv beta iota.
        destruct (final_lane_sent vad false svc s0 w) as (new2 & Hs2 & H2).
        destruct (final_lane clock whisper vad svc s0 w) as [s2 w2].
        exists new2. auto.
    + exists []. simpl. rewrite app_nil_r. auto.
  - exists []. simpl. rewrite app_nil_r. auto.
Qed.

(** The receive loop only ever appends to what the client has received,
    and what it appends are [error] events and transcriptions whose
    stripped text is not empty; without instant mode every transcription
    it sends is a final one.  This holds however the loop ends. *)
Theorem run_sends_only_loop_events vad instant inputs s w :
  ∃ new,
    sent (run clock whisper vad instant inputs s w).2 = sent w ++ new
    ∧ Forall (loop_event instant) new.
Proof.
  revert s w. induction inputs as [|[svc msg] rest IH]; intros s w.
  - exists []. simpl. rewrite app_nil_r. auto.
  - rewrite run_cons.
    destruct (iteration_sent vad instant svc msg s w) as (new1 & Hs1 & H1).
    destruct (iteration clock whisper vad instant svc msg s w) as [[s1|] w1].
    + destruct (IH s1 w1) as (new2 & Hs2 & H2).
      exists (new1 ++ new2). simpl in *. rewrite Hs2, Hs1, <- app_assoc.
      split; [reflexivity | apply Forall_app; auto].
    + exists new1. auto.
Qed.

(** *** Leaving the loop *)

Lemma frombuffer_length data c :
  frombuffer data = Some c → length data = (4 * length c)%nat.
Proof.
  revert c. induction data as [data IH] using (induction_ltof1 _ length).
  unfold ltof in IH. intros c.
  destruct data as [|b0 [|b1 [|b2 [|b3 rest]]]]; simpl; try discriminate.
  - intros [= <-]. reflexivity.
  - destruct (frombuffer rest) as [a|] eqn:Ha; [|discriminate].
    intros [= <-]. simpl. rewrite (IH rest) with (c := a); [lia | simpl; lia | exact Ha].
Qed.

(** A frame decodes exactly when its length is a multiple of four. *)
Lemma frombuffer_None_iff data :
  frombuffer data = None ↔ (length data mod 4 ≠ 0)%nat.
Proof.
  induction data as [data IH] using (induction_ltof1 _ length).
  unfold ltof in IH.
  destruct data as [|b0 [|b1 [|b2 [|b3 rest]]]]; cbn [frombuffer length].
  - split; [discriminate | intros H; exfalso; apply H; reflexivity].
  - split; [intros _; discriminate | reflexivity].
  - split; [intros _; discriminate | reflexivity].
  - split; [intros _; discriminate | reflexivity].
  - specialize (IH rest ltac:(simpl; lia)).
    replace (S (S (S (S (length rest))))) with (length rest + 1 * 4)%nat by lia.
    rewrite Nat.Div0.mod_add, <- IH.
    destruct (frombuffer rest); split; congruence.
Qed.

Lemma chunks_of_stay (inputs : list (TranscriptionService * Incoming)) :
  Forall (λ i, ¬ leaves i.2) inputs → ∃ cs, chunks_of inputs = Some cs.
Proof.
  induction 1 as [|[svc msg] rest Hmsg _ [cs IH]]; [exists []; reflexivity|].
  destruct msg as [data|]; simpl in *; [|tauto].
  destruct (frombuffer data) as [c|] eqn:Hc.
  - rewrite IH. eauto.
  - exfalso. apply Hmsg. apply frombuffer_None_iff. exact Hc.
Qed.

(** The loop goes on as long as every message is a frame whose length is
    a multiple of four bytes, and leaves for good at the first message
    that is not: a disconnect leaves silently, a malformed frame is
    logged and closes the connection, nothing is sent or transcribed for
    it, and the messages behind it are never looked at. *)
Theorem loop_leaves_at_first_bad_message vad instant before after svc msg s w :
  Forall (λ i, ¬ leaves i.2) before →
  leaves msg →
  ∃ s1 w1,
    run clock whisper vad instant before s w = (Some s1, w1)
    ∧ run clock whisper vad instant (before ++ (svc, msg) :: after) s w
      = (None, left_on msg w1).
Proof.
  intros Hstay Hleave.
  destruct (chunks_of_stay before Hstay) as [cs Hcs].
  destruct (run_windows vad instant before cs s w Hcs)
    as (s1 & w1 & Hrun & _).
  exists s1, w1. split; [exact Hrun|].
  rewrite run_app, Hrun, run_cons. unfold iteration.
  destruct msg as [data|]; simpl in *.
  - apply frombuffer_None_iff in Hleave. rewrite Hleave. reflexivity.
  - reflexivity.
Qed.

(** *** How often a lane flushes *)

Lemma windows_count size buf cs :
  4 ≤ size →
  Z.of_nat (length buf) < size →
  let total := Z.of_nat (length buf) + Z.of_nat (length cs) in
  let period := size - size / 4 in
  Z.of_nat (length (windows size buf cs).2)
  = (if total <? size then 0 else 1 + (total - size) / period)
  ∧ Z.of_nat (length (windows size buf cs).1)
    = (if total <? size then total else size / 4 + (total - size) mod period).
Proof.
  intros Hsize. revert buf.
  assert (Hk : 1 ≤ size / 4 < size).
  { split; [apply Z.div_le_lower_bound; lia | apply Z.div_lt_upper_bound; lia]. }
  induction cs as [|c cs IH]; intros buf Hbuf; cbv zeta.
  - simpl. rewrite Z.add_0_r.
    destruct (Z.ltb_spec (Z.of_nat (length buf)) size); [auto | lia].
  - cbn [windows].
    assert (Hb : Z.of_nat (length (buf ++ [c])) = Z.of_nat (length buf) + 1)
      by (rewrite length_app; simpl; lia).
    replace (Z.of_nat (length (c :: cs))) with (1 + Z.of_nat (length cs))
      by (simpl; lia).
    destruct (Z.geb_spec (Z.of_nat (length (buf ++ [c]))) size) as [Hge|Hlt].
    + destruct (slice_from_suffix (size / 4) (buf ++ [c])) as [_ Hlen]; [lia|].
      specialize (IH (slice_from (- (size / 4)) (buf ++ [c]))).
      rewrite Hlen, Z2Nat.id in IH by lia. specialize (IH ltac:(lia)).
      cbv zeta in IH.
      destruct (windows size (slice_from (- (size / 4)) (buf ++ [c])) cs)
        as [buf' flushed]. cbn [fst snd length] in *.
      destruct IH as [IHc IHb].
      rewrite Nat2Z.inj_succ, IHc, IHb.
      assert (Htot : Z.of_nat (length buf) + (1 + Z.of_nat (length cs)) - size
                     = Z.of_nat (length cs)) by lia.
      destruct (Z.ltb_spec (Z.of_nat (length buf) + (1 + Z.of_nat (length cs))) size);
        [lia|].
      rewrite Htot.
      destruct (Z.ltb_spec (size / 4 + Z.of_nat (length cs)) size).
      * rewrite Z.div_small, Z.mod_small by lia. lia.
      * set (a := size / 4 + Z.of_nat (length cs) - size).
        set (p := size - size / 4).
        assert (Hd : Z.of_nat (length cs) / p = a / p + 1).
        { rewrite <- (Z_div_plus_full a 1 p) by (subst p; lia).
          f_equal. subst a p. lia. }
        assert (Hm : Z.of_nat (length cs) mod p = a mod p).
        { rewrite <- (Z_mod_plus_full a 1 p). f_equal. subst a p. lia. }
        rewrite Hd, Hm. lia.
    + specialize (IH (buf ++ [c]) ltac:(lia)). cbv zeta in IH.
      rewrite Hb in IH.
      replace (Z.of_nat (length buf) + (1 + Z.of_nat (length cs)))
        with (Z.of_nat (length buf) + 1 + Z.of_nat (length cs)) by lia.
      exact IH.
Qed.

(** From the start of a session, for a sensitivity of at most 13, after
    [n] well-formed frames a fed lane with threshold [T] has flushed
    [0] times if [n < T] and [1 + (n - T) / (T - T/4)] times otherwise:
    the first flush comes with chunk [T] and the next ones every
    [T - T/4] chunks.  Its buffer then holds [n], respectively
    [T/4 + (n - T) mod (T - T/4)], chunks. *)
Theorem flush_cadence vad instant l inputs cs w s' w' :
  vad ≤ 13 →
  enabled instant l = true →
  chunks_of inputs = Some cs →
  run clock whisper vad instant inputs initial w = (Some s', w') →
  let n := Z.of_nat (length cs) in
  let T := threshold l vad in
  Z.of_nat (length (lane_calls l w'))
  = Z.of_nat (length (lane_calls l w))
    + (if n <? T then 0 else 1 + (n - T) / (T - T / 4))
  ∧ Z.of_nat (length (buffer_of l s'))
    = (if n <? T then n else T / 4 + (n - T) mod (T - T / 4)).
Proof.
  intros Hvad Hen Hcs Hrun.
  destruct (run_windows vad instant inputs cs initial w Hcs)
    as (s1 & w1 & Hrun1 & _ & Hl).
  rewrite Hrun in Hrun1. injection Hrun1 as <- <-.
  specialize (Hl l). rewrite Hen in Hl. destruct Hl as [-> ->].
  pose proof (threshold_ge_4 vad l Hvad) as H4.
  assert (Hnil : buffer_of l initial = []) by (destruct l; reflexivity).
  rewrite Hnil.
  destruct (windows_count (threshold l vad) [] cs H4) as [Hc Hb].
  { simpl. lia. }
  cbv zeta in *. simpl length in Hc, Hb. rewrite Z.add_0_l in Hc, Hb.
  rewrite length_app, Nat2Z.inj_add, Hc, Hb. auto.
Qed.

(** *** Sensitivities the endpoint accepts but the thresholds were not
    made for *)

Lemma windows_untruncated size buf cs :
  size / 4 = 0 →
  (windows size buf cs).1 = buf ++ cs
  ∧ Z.of_nat (length (windows size buf cs).2)
    = Z.max 0 (Z.of_nat (length cs)
               - Z.max 0 (size - Z.of_nat (length buf) - 1)).
Proof.
  intros Hq. revert buf. induction cs as [|c cs IH]; intros buf.
  - simpl. rewrite app_nil_r. split; [reflexivity | lia].
  - cbn [windows]. rewrite Hq, slice_from_zero.
    assert (Hb : Z.of_nat (length (buf ++ [c])) = Z.of_nat (length buf) + 1)
      by (rewrite length_app; simpl; lia).
    specialize (IH (buf ++ [c])). rewrite Hb, <- app_assoc in IH.
    replace (Z.of_nat (length (c :: cs))) with (1 + Z.of_nat (length cs))
      by (simpl; lia).
    destruct IH as [IHb IHc].
    destruct (Z.geb_spec (Z.of_nat (length (buf ++ [c]))) size).
    + destruct (windows size (buf ++ [c]) cs) as [buf' flushed].
      cbn [fst snd length] in *. split; [exact IHb|].
      rewrite Nat2Z.inj_succ, IHc. lia.
    + split; [exact IHb|]. rewrite IHc. lia.
Qed.

Lemma windows_negative size cs :
  size < 0 → windows size [] cs = ([], (λ c, concat [c]) <$> cs).
Proof.
  intros Hneg. induction cs as [|c cs IH]; [reflexivity|].
  cbn [windows]. change ([] ++ [c]) with [c].
  destruct (Z.geb_spec (Z.of_nat (length [c])) size) as [_|Hlt]; [|simpl in Hlt; lia].
  assert (Hq : size / 4 ≤ -1).
  { apply Z.lt_succ_r. apply Z.div_lt_upper_bound; lia. }
  assert (Hs : slice_from (- (size / 4)) [c] = []).
  { unfold slice_from.
    destruct (Z.ltb_spec (- (size / 4)) 0); [lia|].
    simpl length. rewrite Z.min_r by lia. reflexivity. }
  rewrite Hs, IH. reflexivity.
Qed.

(** The endpoint takes any integer as sensitivity.  With 14 or 15 the
    threshold is 2 or 0 and [threshold // 4] is 0, so the slice [[-0:]]
    drops nothing: after [n] well-formed frames the final buffer holds
    all [n] chunks of the session, and the adapter has been called at
    every frame from the second (for 14) or the first (for 15) on. *)
Theorem sensitivity_14_15_never_truncates vad instant inputs cs w :
  14 ≤ vad ≤ 15 →
  chunks_of inputs = Some cs →
  ∃ s' w',
    run clock whisper vad instant inputs initial w = (Some s', w')
    ∧ audio_buffer s' = cs
    ∧ Z.of_nat (length (lane_calls Final w'))
      = Z.of_nat (length (lane_calls Final w))
        + Z.max 0 (Z.of_nat (length cs) - (15 - vad)).
Proof.
  intros Hvad Hcs.
  destruct (run_windows vad instant inputs cs initial w Hcs)
    as (s' & w' & Hrun & _ & Hl).
  exists s', w'. split; [exact Hrun|].
  destruct (Hl Final) as [Hb Hc].
  change (buffer_of Final initial) with (@nil Chunk) in Hb, Hc.
  change (threshold Final vad) with (buffer_size vad) in Hb, Hc.
  change (buffer_of Final s') with (audio_buffer s') in Hb.
  destruct (windows_untruncated (buffer_size vad) [] cs) as [Hw1 Hw2].
  { unfold buffer_size. apply Z.div_small. lia. }
  rewrite Hb, Hc, Hw1, length_app, Nat2Z.inj_add, Hw2.
  split; [reflexivity|]. unfold buffer_size. simpl length. lia.
Qed.

(** With a sensitivity of 16 or more the threshold is negative: every
    frame is flushed on arrival, the adapter gets each chunk alone, in
    order, and the final buffer is empty at every wait. *)
Theorem sensitivity_16_up_flushes_every_frame vad instant inputs cs w :
  16 ≤ vad →
  chunks_of inputs = Some cs →
  ∃ s' w',
    run clock whisper vad instant inputs initial w = (Some s', w')
    ∧ audio_buffer s' = []
    ∧ lane_calls Final w' = lane_calls Final w ++ cs.
Proof.
  intros Hvad Hcs.
  destruct (run_windows vad instant inputs cs initial w Hcs)
    as (s' & w' & Hrun & _ & Hl).
  exists s', w'. split; [exact Hrun|].
  destruct (Hl Final) as [Hb Hc].
  change (buffer_of Final initial) with (@nil Chunk) in Hb, Hc.
  change (threshold Final vad) with (buffer_size vad) in Hb, Hc.
  change (buffer_of Final s') with (audio_buffer s') in Hb.
  rewrite (windows_negative (buffer_size vad) cs) in Hb, Hc
    by (unfold buffer_size; lia).
  split; [exact Hb|]. rewrite Hc. f_equal. cbn [snd].
  clear. induction cs as [|c cs IH]; [reflexivity|].
  rewrite fmap_cons, IH. cbn [concat]. rewrite app_nil_r. reflexivity.
Qed.

End LoopMore.

(** * The adapter's output, the start of a session and [/load-model] *)

Section EndpointFacts.
Import Registry Session Lifecycle Endpoints.

Implicit Types (st svc : TranscriptionService) (env : Env) (model : string)
  (w : World).

Lemma rstrip_fixed s : rstrip (rstrip s) = rstrip s.
Proof.
  induction s as [|c s IH]; [reflexivity|].
  cbn [rstrip]. destruct (rstrip s) as [|c' r] eqn:Hr.
  - destruct (isspace c) eqn:Hc; [reflexivity|].
    cbn [rstrip]. rewrite Hc. reflexivity.
  - cbn [rstrip]. cbn [rstrip] in IH. rewrite IH. reflexivity.
Qed.

Lemma rstrip_keeps_head c s :
  isspace c = false → ∃ r, rstrip (String c s) = String c r.
Proof.
  intros Hc. cbn [rstrip]. destruct (rstrip s); [rewrite Hc|]; eauto.
Qed.

Lemma lstrip_head s :
  lstrip s = "" ∨ ∃ c r, lstrip s = String c r ∧ isspace c = false.
Proof.
  induction s as [|c s IH]; [left; reflexivity|].
  cbn [lstrip]. destruct (isspace c) eqn:Hc; [exact IH | right; eauto].
Qed.

(** Stripping a stripped string changes nothing. *)
Lemma strip_fixed s : strip (strip s) = strip s.
Proof.
  unfold strip.
  assert (Hl : lstrip (rstrip (lstrip s)) = rstrip (lstrip s)).
  { destruct (lstrip_head s) as [-> | (c & r & -> & Hc)]; [reflexivity|].
    destruct (rstrip_keeps_head c r Hc) as [r' ->].
    cbn [lstrip]. rewrite Hc. reflexivity. }
  rewrite Hl. apply rstrip_fixed.
Qed.

(** When [transcribe_audio] returns, it returns one entry per segment of
    the model, in the model's order and with the model's offsets, and the
    text of each entry is already stripped: the second [strip] applied by
    the receive loop leaves it as it is, so the text the duplicate filter
    compares and remembers is the text the client is sent. *)
Theorem transcribe_audio_output (transcribe : Transcriber) svc audio vad out :
  transcribe_audio transcribe svc audio vad = inr out →
  ∃ m raw,
    models svc !! current_model svc = Some (Some m)
    ∧ transcribe m audio "sv" (Z.max 1 (6 - vad)) true = inr raw
    ∧ length out = length raw
    ∧ (seg_start <$> out) = (seg_start <$> raw)
    ∧ (seg_end <$> out) = (seg_end <$> raw)
    ∧ (seg_text <$> out) = (strip ∘ seg_text <$> raw)
    ∧ Forall (λ seg, strip (seg_text seg) = seg_text seg) out.
Proof.
  unfold transcribe_audio.
  destruct (models svc !! current_model svc) as [[m|]|]; try discriminate.
  destruct (transcribe m audio "sv" (Z.max 1 (6 - vad)) true) as [e|raw] eqn:Hraw;
    [discriminate|].
  intros [= <-]. exists m, raw.
  split; [reflexivity|]. split; [exact Hraw|].
  split; [apply length_fmap|].
  rewrite <- !list_fmap_compose.
  repeat split; try reflexivity.
  apply Forall_fmap, Forall_forall. intros seg _. simpl. apply strip_fixed.
Qed.

Lemma healthy_current_known svc : healthy svc → current_model svc ∈ TIERS.
Proof.
  intros (Hk & [m Hm] & _).
  destruct (decide (current_model svc ∈ TIERS)) as [|Hnot]; [assumption|].
  apply (tiers_known_lookup svc _ Hk) in Hnot. congruence.
Qed.

(** A session opened for a name that is not a tier, on a healthy service:
    the client is told [model_loading], the [ValueError] is logged, the
    connection is closed without [model_loaded], the receive loop is not
    entered and the service is untouched. *)
Theorem session_start_unknown_tier env model svc w :
  healthy svc →
  model ∉ TIERS →
  session_start env model svc w
  = ((false, svc),
     {| sent := sent w ++ [model_loading model];
        logged := logged w ++ ["WebSocket error: Invalid model size: " +:+ model];
        time_reads := time_reads w;
        calls := calls w;
        closed := true |}).
Proof.
  intros Hh Hnot. unfold session_start.
  assert (Hne : String.eqb model (current_model svc) = false).
  { apply String.eqb_neq. intros ->. apply Hnot, healthy_current_known, Hh. }
  rewrite Hne. cbn [negb].
  unfold load_model.
  rewrite (proj2 (tiers_known_lookup svc model (proj1 Hh)) Hnot).
  reflexivity.
Qed.

(** The start of a session on a healthy service leaves it healthy.  When
    the receive loop is entered the requested tier is the current one,
    and the client was sent nothing if it already was, [model_loading]
    then [model_loaded] otherwise.  When it is not entered the client was
    sent [model_loading] only, the error is logged, the connection is
    closed and the current tier is the one from before. *)
Theorem session_start_outcome env model svc w :
  healthy svc →
  let '((entered, svc'), w') := session_start env model svc w in
  healthy svc'
  ∧ time_reads w' = time_reads w ∧ calls w' = calls w
  ∧ if entered then
      current_model svc' = model
      ∧ closed w' = closed w
      ∧ logged w' = logged w
      ∧ sent w'
        = sent w ++ (if bool_decide (model = current_model svc) then []
                     else [model_loading model; model_loaded model])
    else
      current_model svc' = current_model svc
      ∧ closed w' = true
      ∧ sent w' = sent w ++ [model_loading model]
      ∧ ∃ e, (load_model env model svc).1.1 = Some e
             ∧ logged w' = logged w ++ ["WebSocket error: " +:+ str e].
Proof.
  intros Hh. unfold session_start.
  destruct (String.eqb_spec model (current_model svc)) as [->|Hne]; cbn [negb].
  - unfold ret. rewrite bool_decide_eq_true_2 by reflexivity.
    rewrite app_nil_r. auto 10.
  - rewrite bool_decide_eq_false_2 by exact Hne.
    pose proof (load_model_healthy env model svc Hh) as Hh'.
    destruct (load_model env model svc) as [[[e|] svc'] tr] eqn:Hload; simpl in Hh'.
    + unfold bind, send_json, logger_error, websocket_close, ret. simpl.
      split; [exact Hh'|]. repeat split; eauto.
      revert Hload. unfold load_model.
      destruct (models svc !! model) as [[m|]|]; [discriminate| |congruence].
      unfold load_begin, load_finish.
      destruct (WhisperModel_new env (model_id_of model));
        destruct (model_exists_locally env model); simpl; intros [= <- <-];
        reflexivity || discriminate.
    + unfold bind, send_json, ret. simpl.
      destruct (load_model_returns _ _ _ _ _ Hload) as (m & _ & Hcur & _).
      split; [exact Hh'|]. rewrite <- app_assoc. repeat split; auto.
Qed.

Lemma load_model_raises env model st e :
  (load_model env model st).1.1 = Some e →
  (load_model env model st).1.2
  = match models st !! model with
    | Some _ => set_download_progress None (set_is_downloading false st)
    | None => st
    end
  ∧ ∀ m, models st !! model ≠ Some (Some m).
Proof.
  unfold load_model.
  destruct (models st !! model) as [[m|]|]; simpl; [discriminate| |].
  - unfold load_begin, load_finish.
    destruct (WhisperModel_new env (model_id_of model));
      destruct (model_exists_locally env model); simpl; try discriminate;
      intros _; split; try reflexivity; discriminate.
  - intros _. split; [reflexivity | discriminate].
Qed.

(** [POST /load-model] does not report a failed load.  When the load
    raises, whether for an unknown tier or a failing constructor, the
    answer is still "downloading" if the weights were not on disk, and
    "success" if they were and the thread ended in time, although the
    requested tier holds no handle afterwards and the table and the
    current tier are as before. *)
Theorem load_endpoint_hides_failure env model joined svc e :
  (load_model env model svc).1.1 = Some e →
  let '(reply, svc') := load_model_endpoint env model joined svc in
  reply = (if model_exists_locally env model
           then if joined then ReplySuccess model else ReplyLoading
           else ReplyDownloading model)
  ∧ models svc' = models svc
  ∧ current_model svc' = current_model svc
  ∧ ∀ m, models svc' !! model ≠ Some (Some m).
Proof.
  intros Hraise. unfold load_model_endpoint.
  destruct (load_model_raises env model svc e Hraise) as [Hst Hnot].
  rewrite Hst.
  split; [destruct (model_exists_locally env model); reflexivity|].
  destruct (models svc !! model) eqn:Hlk; simpl; repeat split; auto;
    intros m; rewrite ?Hlk; auto; discriminate.
Qed.

Lemma wait_while_downloading_spec observe wait_time fuel :
  let t := wait_while_downloading observe wait_time fuel in
  (wait_time ≤ t ≤ wait_time + fuel)%nat
  ∧ (∀ k, (wait_time ≤ k < t)%nat → observe k = true)
  ∧ ((t < wait_time + fuel)%nat → observe t = false).
Proof.
  revert wait_time. induction fuel as [|fuel IH]; intros wait_time; cbn [wait_while_downloading].
  - cbv zeta. repeat split; lia.
  - destruct (observe wait_time) eqn:Hobs.
    + specialize (IH (S wait_time)). cbv zeta in *.
      destruct IH as (Hb & Hbefore & Hat).
      split; [lia|]. split.
      * intros k Hk. destruct (decide (k = wait_time)) as [->|]; [exact Hobs|].
        apply Hbefore. lia.
      * intros Hlt. apply Hat. lia.
    + cbv zeta. repeat split; try lia. auto.
Qed.

(** The wait at the start of a session ends after at most 300 seconds:
    at the first second at which no download is in progress, or at 300
    with a download still running. *)
Theorem wait_for_download_bounded observe :
  let t := wait_for_download observe in
  (t ≤ 300)%nat
  ∧ (∀ k, (k < t)%nat → observe k = true)
  ∧ ((t < 300)%nat → observe t = false).
Proof.
  destruct (wait_while_downloading_spec observe 0 max_wait) as (Hb & Hbefore & Hat).
  cbv zeta. unfold wait_for_download, max_wait in *.
  split; [lia|]. split; [intros k Hk; apply Hbefore; lia | exact Hat].
Qed.

End EndpointFacts.

(** * More concrete runs *)

Section MoreRuns.
Import Registry Session Lifecycle Endpoints Buffering Examples MoreExamples.

Lemma serving_healthy : healthy serving.
Proof.
  split; [vm_compute; reflexivity|].
  split; [exists 1%nat; vm_compute; reflexivity|].
  split; reflexivity.
Defined.

Lemma load_model_success_witness :
  ∃ st' tr,
    load_model env_fetch "medium" serving = (None, st', tr)
    ∧ models st' !! "medium" = Some (Some 1%nat)
    ∧ current_model st' = "medium".
Proof.
  destruct (load_model_success env_fetch "medium" serving 1%nat)
    as (st' & tr & Hload & Hm & _ & Hcur & _).
  - vm_compute. reflexivity.
  - reflexivity.
  - exists st', tr. split; [exact Hload|]. split; [exact Hm | exact Hcur].
Defined.

Lemma loaded_handle_persists_witness :
  models (loads three_loads serving) !! "small" = Some (Some 1%nat).
Proof.
  apply (loaded_handle_persists three_loads serving "small" 1%nat).
  vm_compute. reflexivity.
Defined.


Lemma download_settles_witness :
  poll_download_progress
    (service (interleave "medium" (inr 2%nat) a_schedule
                (start env_fetch "medium" serving))) = None.
Proof.
  assert (Hfin : finished (interleave "medium" (inr 2%nat) a_schedule
                             (start env_fetch "medium" serving))).
  { split; [exists None; vm_compute; reflexivity | right; vm_compute; reflexivity]. }
  exact (proj1 (download_settles env_fetch "medium" (inr 2%nat) serving a_schedule Hfin)).
Defined.


Lemma loader_steps_are_load_model_witness :
  service (interleave "medium" (WhisperModel_new env_offline (model_id_of "medium"))
             (replicate 4 Loader) (start env_offline "medium" serving))
  = (load_model env_offline "medium" serving).1.2.
Proof.
  assert (Hlk : models serving !! "medium" = Some None) by (vm_compute; reflexivity).
  exact (proj2 (loader_steps_are_load_model env_offline "medium" serving Hlk)).
Defined.

Lemma run_follows_windows_witness :
  ∃ s' w',
    run tick always_hej 3 true (frames 1 30) initial fresh_world = (Some s', w')
    ∧ audio_buffer s' = (windows (30 - 3 * 2) [] (chunks 1 30)).1.
Proof.
  destruct (run_follows_windows tick always_hej 3 true (frames 1 30) (chunks 1 30)
              fresh_world) as (s' & w' & Hrun & _ & Hb & _).
  - vm_compute. reflexivity.
  - exists s', w'. split; [exact Hrun | exact Hb].
Defined.

Lemma flush_cadence_witness :
  Z.of_nat (length (lane_calls Instant (after_thirty_frames).2)) = 4.
Proof.
  assert (Hrun : run tick always_hej 3 true (frames 1 30) initial fresh_world
                 = (Some (after_thirty_frames).1, (after_thirty_frames).2))
    by (vm_compute; reflexivity).
  assert (Hcs : chunks_of (frames 1 30) = Some (chunks 1 30))
    by (vm_compute; reflexivity).
  assert (Hvad : 3 ≤ 13) by lia.
  destruct (flush_cadence tick always_hej 3 true Instant (frames 1 30) (chunks 1 30)
              fresh_world (after_thirty_frames).1 (after_thirty_frames).2
              Hvad eq_refl Hcs Hrun) as [Hcalls _].
  rewrite Hcalls. reflexivity.
Defined.

Lemma loop_leaves_at_first_bad_message_witness :
  ∃ s1 w1,
    run tick always_hej 3 true (frames 1 3) initial fresh_world = (Some s1, w1)
    ∧ run tick always_hej 3 true (frames 1 3 ++ (serving, short_frame) :: frames 4 30)
        initial fresh_world
      = (None, left_on short_frame w1).
Proof.
  apply (loop_leaves_at_first_bad_message tick always_hej 3 true (frames 1 3)
           (frames 4 30) serving short_frame initial fresh_world).
  - unfold frames. simpl. repeat constructor; simpl; intros H; apply H; reflexivity.
  - simpl. discriminate.
Defined.

Lemma session_start_unknown_tier_witness :
  session_start env_fetch "huge" serving fresh_world
  = ((false, serving),
     {| sent := sent fresh_world ++ [model_loading "huge"];
        logged := logged fresh_world
                  ++ ["WebSocket error: Invalid model size: " +:+ "huge"];
        time_reads := time_reads fresh_world;
        calls := calls fresh_world;
        closed := true |}).
Proof.
  apply (session_start_unknown_tier env_fetch "huge" serving fresh_world).
  - exact serving_healthy.
  - apply (bool_decide_unpack _). vm_compute. exact I.
Defined.

Lemma session_start_outcome_witness :
  healthy (session_start env_fetch "medium" serving fresh_world).1.2.
Proof.
  pose proof (session_start_outcome env_fetch "medium" serving fresh_world
                serving_healthy) as H.
  destruct (session_start env_fetch "medium" serving fresh_world) as [[entered svc'] w'].
  exact (proj1 H).
Defined.

Lemma load_endpoint_hides_failure_witness :
  (load_model_endpoint env_corrupt "medium" true serving).1 = ReplySuccess "medium"
  ∧ ∀ m, models (load_model_endpoint env_corrupt "medium" true serving).2 !! "medium"
         ≠ Some (Some m).
Proof.
  assert (Hraise : (load_model env_corrupt "medium" serving).1.1
                   = Some (Exception "Unable to open file model.bin"))
    by (vm_compute; reflexivity).
  pose proof (load_endpoint_hides_failure env_corrupt "medium" true serving _ Hraise) as H.
  destruct (load_model_endpoint env_corrupt "medium" true serving) as [reply svc'].
  destruct H as (Hr & _ & _ & Hn). split; [exact Hr | exact Hn].
Defined.

Lemma transcribe_audio_output_witness :
  Forall (λ seg, strip (seg_text seg) = seg_text seg)
    [{| seg_text := "hej"; seg_start := 0%Q; seg_end := 1%Q |}].
Proof.
  destruct (transcribe_audio_output hej serving [0] 3
              [{| seg_text := "hej"; seg_start := 0%Q; seg_end := 1%Q |}])
    as (m & raw & _ & _ & _ & _ & _ & _ & Hall).
  - vm_compute. reflexivity.
  - exact Hall.
Defined.

Lemma sensitivity_14_15_never_truncates_witness :
  ∃ s' w',
    run tick always_hej 14 false (frames 1 30) initial fresh_world = (Some s', w')
    ∧ audio_buffer s' = chunks 1 30.
Proof.
  destruct (sensitivity_14_15_never_truncates tick always_hej 14 false (frames 1 30)
              (chunks 1 30) fresh_world) as (s' & w' & Hrun & Hb & _).
  - lia.
  - vm_compute. reflexivity.
  - exists s', w'. split; [exact Hrun | exact Hb].
Defined.

Lemma sensitivity_16_up_flushes_every_frame_witness :
  ∃ s' w',
    run tick always_hej 16 false (frames 1 5) initial fresh_world = (Some s', w')
    ∧ lane_calls Final w' = lane_calls Final fresh_world ++ chunks 1 5.
Proof.
  destruct (sensitivity_16_up_flushes_every_frame tick always_hej 16 false (frames 1 5)
              (chunks 1 5) fresh_world) as (s' & w' & Hrun & _ & Hc).
  - lia.
  - vm_compute. reflexivity.
  - exists s', w'. split; [exact Hrun | exact Hc].
Defined.

End MoreRuns.
